(** * Nostalgic content recommendation engine: scoring, filtering, bandit

    A shallow embedding of the algorithms of the recommendation engine as
    the repository writes them down (writeup/13-academic-algorithms.md,
    Algorithms 1-8; writeup/9-nostalgia-score.md; the feedback-loop
    write-up for the LinUCB recurrences) and of the nostalgic period of
    the preferences endpoints, followed by the properties the
    specification states about them and by further properties of the
    code.

    Numbers that the algorithms treat as floats are modelled by exact
    reals: Stdlib's [R] for the nostalgia score (it needs [exp] and [ln]),
    and an arbitrary real field for the bandit's linear algebra. *)

From Stdlib Require Import Reals Lra Lia ZArith Bool List String Ascii.
From Stdlib Require Import Permutation.
From HB Require Import structures.
From mathcomp Require boot order algebra.

(* ===================================================================== *)
(** ** Algorithm 3: nostalgia score                                       *)
(* ===================================================================== *)

Module NostalgiaScorer.
Local Open Scope R_scope.

(** Constants of Algorithm 3. *)
Definition PEAK_AGE : R := 13.
Definition WIDTH : R := 8.
Definition PREBIRTH_DECAY : R := 3 / 100.
Definition CULTURAL_WEIGHT : R := 4 / 10.
Definition BASE_WEIGHT : R := 7 / 10.
Definition POP_BOOST : R := 3 / 10.

(** Algorithm 3a, AGE_NOSTALGIA: a Gaussian centred at [PEAK_AGE] for
    post-birth content, an exponential decay from the birth-point value
    for pre-birth content. *)
Definition age_nostalgia (age_at_release : Z) : R :=
  if (0 <=? age_at_release)%Z then
    exp (- ((IZR age_at_release - PEAK_AGE) ^ 2 / (2 * WIDTH ^ 2)))
  else
    let birth_score := exp (- ((0 - PEAK_AGE) ^ 2 / (2 * WIDTH ^ 2))) in
    birth_score * exp (- PREBIRTH_DECAY * Rabs (IZR age_at_release)).

(** Algorithm 3b, POPULARITY_SCORE. *)
Definition popularity_score (rating_count max_count : R) (use_linear : bool) : R :=
  if Rle_dec rating_count 0 then 0
  else if Rle_dec max_count 0 then 0
  else if use_linear then Rmin 1 (rating_count / max_count)
  else ln (1 + rating_count) / ln (1 + max_count).

(** [round(score, ndigits)]: the closest multiple of [10^-ndigits], a tie
    going to the even neighbour. *)
Definition round_half_even (x : R) : Z :=
  let f := Zfloor x in
  match total_order_T (x - IZR f) (1 / 2) with
  | inleft (left _) => f
  | inleft (right _) => if Z.even f then f else (f + 1)%Z
  | inright _ => (f + 1)%Z
  end.

Definition round_ndigits (x : R) (ndigits : nat) : R :=
  IZR (round_half_even (x * 10 ^ ndigits)) / 10 ^ ndigits.

(** Steps 1-5 and the sum of step 6 of NOSTALGIA_SCORE: the score before
    it is clamped and rounded. *)
Definition final_score (birth_year release_year : Z)
    (rating_count max_count : R) (use_linear : bool) : R :=
  let age_at_release := (release_year - birth_year)%Z in
  let age_score := age_nostalgia age_at_release in
  let pop_score := popularity_score rating_count max_count use_linear in
  let personal := age_score * (BASE_WEIGHT + POP_BOOST * pop_score) in
  let cultural :=
    if (age_at_release <? 0)%Z then pop_score * CULTURAL_WEIGHT else 0 in
  personal + cultural.

(** Step 6: [min(1.0, max(0.0, final_score))]. *)
Definition clamp01 (x : R) : R := Rmin 1 (Rmax 0 x).

(** NOSTALGIA_SCORE, steps 1-7. *)
Definition nostalgia_score (birth_year release_year : Z)
    (rating_count max_count : R) (use_linear : bool) : R :=
  let score :=
    clamp01 (final_score birth_year release_year rating_count max_count use_linear) in
  round_ndigits score 3.

(** The two call sites of GET_RECOMMENDATION, step 4: movies are scored
    on their rating count with logarithmic scaling, songs on their
    popularity with linear scaling. *)
Definition MAX_MOVIE_RATINGS : R := 100000.
Definition MAX_SONG_POPULARITY : R := 100.

Definition movie_nostalgia_score (birth_year movie_year : Z) (rating_count : R) : R :=
  nostalgia_score birth_year movie_year rating_count MAX_MOVIE_RATINGS false.

Definition song_nostalgia_score (birth_year song_year : Z) (popularity : R) : R :=
  nostalgia_score birth_year song_year popularity MAX_SONG_POPULARITY true.

End NostalgiaScorer.

(* ===================================================================== *)
(** ** Algorithm 8: genre normalization                                   *)
(* ===================================================================== *)

Module GenreNormalizer.
Local Open Scope string_scope.
Import ListNotations.

(** The twelve canonical arms (ARMS of Algorithm 5). *)
Definition ARMS : list string :=
  [ "drama"; "comedy"; "action"; "romance"; "thriller"; "other_movie";
    "pop"; "rock"; "hiphop"; "rnb"; "country"; "other_song" ].

(** The arms of each content type. *)
Definition MOVIE_ARMS : list string :=
  [ "drama"; "comedy"; "action"; "romance"; "thriller"; "other_movie" ].
Definition SONG_ARMS : list string :=
  [ "pop"; "rock"; "hiphop"; "rnb"; "country"; "other_song" ].

Definition MOVIE_GENRE_MAP : list (string * string) :=
  [ ("drama", "drama"); ("comedy", "comedy"); ("action", "action");
    ("adventure", "action"); ("romance", "romance"); ("thriller", "thriller");
    ("horror", "thriller"); ("crime", "thriller"); ("sci-fi", "action");
    ("animation", "comedy"); ("family", "comedy"); ("fantasy", "action");
    ("mystery", "thriller"); ("war", "drama"); ("documentary", "other_movie");
    ("musical", "comedy"); ("history", "drama") ].

Definition SONG_GENRE_MAP : list (string * string) :=
  [ ("pop", "pop"); ("rock", "rock"); ("alternative", "rock"); ("indie", "rock");
    ("hip hop", "hiphop"); ("hip-hop", "hiphop"); ("rap", "hiphop");
    ("r&b", "rnb"); ("rnb", "rnb"); ("soul", "rnb"); ("blues", "rnb");
    ("country", "country"); ("folk", "country");
    ("electronic", "pop"); ("dance", "pop"); ("edm", "pop"); ("latin", "pop");
    ("metal", "rock"); ("punk", "rock");
    ("jazz", "other_song"); ("classical", "other_song"); ("reggae", "other_song") ].

(** [first_genre IN MAP] and [MAP[first_genre]] in one lookup. *)
Fixpoint map_get (key : string) (m : list (string * string)) : option string :=
  match m with
  | [] => None
  | (k, v) :: rest => if String.eqb key k then Some v else map_get key rest
  end.

(** [raw_genre.split("|")[0]]: the text before the first separator. *)
Fixpoint split_first (s : string) : string :=
  match s with
  | EmptyString => EmptyString
  | String c rest =>
      if Ascii.eqb c "|"%char then EmptyString else String c (split_first rest)
  end.

(** [toLowerCase], on the ASCII letters. *)
Definition lower_char (c : ascii) : ascii :=
  let n := nat_of_ascii c in
  if (65 <=? n)%nat && (n <=? 90)%nat then ascii_of_nat (n + 32) else c.

Fixpoint to_lower (s : string) : string :=
  match s with
  | EmptyString => EmptyString
  | String c rest => String (lower_char c) (to_lower rest)
  end.

(** [trim]: white space (space, tab, line feed, vertical tab, form feed,
    carriage return) removed at both ends. *)
Definition is_space (c : ascii) : bool :=
  let n := nat_of_ascii c in
  (n =? 32)%nat || ((9 <=? n)%nat && (n <=? 13)%nat).

Fixpoint trim_left (s : string) : string :=
  match s with
  | EmptyString => EmptyString
  | String c rest => if is_space c then trim_left rest else s
  end.

Fixpoint trim_right (s : string) : string :=
  match s with
  | EmptyString => EmptyString
  | String c rest =>
      match trim_right rest with
      | EmptyString => if is_space c then EmptyString else String c EmptyString
      | kept => String c kept
      end
  end.

Definition trim (s : string) : string := trim_right (trim_left s).

(** NORMALIZE_GENRE. *)
Definition normalize_genre (raw_genre content_type : string) : string :=
  if String.eqb raw_genre "" then
    if String.eqb content_type "movie" then "other_movie" else "other_song"
  else
    let first_genre := trim (to_lower (split_first raw_genre)) in
    if String.eqb content_type "movie" then
      match map_get first_genre MOVIE_GENRE_MAP with
      | Some arm => arm
      | None => "other_movie"
      end
    else
      match map_get first_genre SONG_GENRE_MAP with
      | Some arm => arm
      | None => "other_song"
      end.

End GenreNormalizer.

(* ===================================================================== *)
(** ** Algorithm 1, step 5: candidate filtering                           *)
(* ===================================================================== *)

Module CandidateFilter.
Import ListNotations.

(** A candidate as step 4 of GET_RECOMMENDATION builds it: movies carry
    their genre list in [genres], songs their genre in [genre]. *)
Record Candidate := mkCandidate {
  content_type : string;
  content_id : string;
  title : string;
  genres : string;
  genre : string;
  year : Z;
  nostalgia_score : R;
  similarity_score : R
}.

(** The default of [candidates[i]] for an index out of range; the loops
    of the algorithms never leave the range. *)
Definition no_candidate : Candidate :=
  mkCandidate "" "" "" "" "" 0%Z 0%R 0%R.

(** A feedback event of the log, as far as the filter reads it. *)
Record FeedbackEvent := mkFeedback {
  fb_content_id : string;
  fb_reward : bool
}.

Definition MIN_NOSTALGIA_SCORE : R := (3 / 10)%R.

(** [recent_ids <- {f.content_id : f in recent_feedback}] *)
Definition recent_ids (recent_feedback : list FeedbackEvent) : list string :=
  map fb_content_id recent_feedback.

(** [{c in candidates : c.id not in recent_ids}] *)
Definition exclude_recent (recent_feedback : list FeedbackEvent)
    (candidates : list Candidate) : list Candidate :=
  filter (fun c => negb (existsb (String.eqb (content_id c)) (recent_ids recent_feedback)))
         candidates.

Definition is_nostalgic (c : Candidate) : bool :=
  if Rle_dec MIN_NOSTALGIA_SCORE (nostalgia_score c) then true else false.

(** FILTER CANDIDATES: the threshold filter replaces the list only when it
    leaves something. *)
Definition filter_candidates (recent_feedback : list FeedbackEvent)
    (candidates : list Candidate) : list Candidate :=
  let candidates := exclude_recent recent_feedback candidates in
  let nostalgic_candidates := filter is_nostalgic candidates in
  if (0 <? List.length nostalgic_candidates)%nat then nostalgic_candidates
  else candidates.

(** Step 4 of PROCESS_FEEDBACK: the candidate rebuilt from a feedback
    request, its genre in both genre fields. *)
Definition feedback_candidate (content_type content_id : string)
    (content_year : Z) (content_genre : string) : Candidate :=
  mkCandidate content_type content_id "" content_genre content_genre
              content_year 0 0.

(** Sample inputs: one movie the user has just been shown and one song
    that scores low. *)
Definition sample_movie : Candidate :=
  mkCandidate "movie" "m7" "A film" "Drama|Romance" "" 1995 (9 / 10) (1 / 2).
Definition sample_song : Candidate :=
  mkCandidate "song" "s1" "A song" "" "rock" 1960 (1 / 10) (1 / 2).
Definition sample_recent : list FeedbackEvent := [ mkFeedback "m7" true ].
Definition sample_candidates : list Candidate := [ sample_movie; sample_song ].

End CandidateFilter.

(* ===================================================================== *)
(** ** Algorithms 4-6: the hierarchical LinUCB bandit                     *)
(* ===================================================================== *)

Module Bandit.
Import mathcomp.boot.boot mathcomp.order.order mathcomp.algebra.algebra.
Import GRing.Theory Num.Theory Order.Theory.
Import GenreNormalizer CandidateFilter.
Local Open Scope ring_scope.

Set Implicit Arguments.
Unset Strict Implicit.
Unset Printing Implicit Defensive.

Section Model.

(** The numbers of the bandit: a real field [F], with the square root the
    numeric library supplies for the exploration bonus taken as a
    parameter, and the context dimension [d] (CONTEXT_DIM, 12 in the
    deployed system). *)
Variable F : realFieldType.
Variable sqrtF : F -> F.
Variable d : nat.

(** EnsureShape: the context truncated or zero-padded to [d] entries. *)
Definition ensure_shape (context : seq F) : 'cV[F]_d :=
  \col_(i < d) nth 0 context i.

(** One arm's ridge-regression model: the matrix [A], the vector [b] and
    the derived weights [theta]. *)
Record ArmModel := mkArm {
  arm_A : 'M[F]_d;
  arm_b : 'cV[F]_d;
  arm_theta : 'cV[F]_d
}.

(** A fresh arm: [A] the identity, [b] zero. *)
Definition arm_init : ArmModel :=
  {| arm_A := 1%:M; arm_b := 0; arm_theta := 0 |}.

(** Steps 5-7 of the feedback loop for one observation [(x, r)]:
    [A <- A + x xT], [b <- b + r x], [theta = A^-1 b]. *)
Definition arm_observe (a : ArmModel) (x : 'cV[F]_d) (r : F) : ArmModel :=
  let A' := arm_A a + x *m x^T in
  let b' := arm_b a + r *: x in
  {| arm_A := A'; arm_b := b'; arm_theta := invmx A' *m b' |}.

Definition dotv (u v : 'cV[F]_d) : F := (u^T *m v) 0 0.

(** The exploitation term [thetaT x]. *)
Definition predict (a : ArmModel) (x : 'cV[F]_d) : F := dotv (arm_theta a) x.

(** The score the library reports for an arm:
    [thetaT x + alpha * sqrt (xT A^-1 x)]. *)
Definition ucb_score (alpha : F) (a : ArmModel) (x : 'cV[F]_d) : F :=
  predict a x + alpha * sqrtF (dotv x (invmx (arm_A a) *m x)).

(** The arm models of one bandit, keyed by arm name. *)
Definition ArmTable := string -> ArmModel.

(** [MAB.partial_fit(decisions=[arm], rewards=[r], contexts=x)]. *)
Definition mab_partial_fit (arms : ArmTable) (arm : string)
    (r : F) (x : 'cV[F]_d) : ArmTable :=
  fun a => if String.eqb a arm then arm_observe (arms a) x r else arms a.

(** [MAB.fit(decisions=[arm], rewards=[r], contexts=x)]: the arms are
    initialised, then the observation is learnt. *)
Definition mab_fit (arm : string) (r : F) (x : 'cV[F]_d) : ArmTable :=
  mab_partial_fit (fun _ => arm_init) arm r x.

(** [MAB.predict_expectations(x)]. *)
Definition mab_predict_expectations (alpha : F) (arms : ArmTable)
    (x : 'cV[F]_d) : string -> F :=
  fun a => ucb_score alpha (arms a) x.

Record LinUCBBandit := mkBandit {
  alpha : F;
  mab : ArmTable;
  is_fitted : bool;
  n_updates : nat
}.

Definition linucb_new (alpha0 : F) : LinUCBBandit :=
  {| alpha := alpha0; mab := fun _ => arm_init; is_fitted := false; n_updates := 0 |}.

(** GetArmFromCandidate: genre normalization of the candidate's genre
    field. *)
Definition get_arm (c : Candidate) : string :=
  normalize_genre
    (if String.eqb (content_type c) "movie" then genres c else genre c)
    (content_type c).

Definition binary_reward (reward : F) : F :=
  if 2%:R^-1 < reward then 1 else 0.

(** LINUCB_UPDATE. *)
Definition linucb_update (m : LinUCBBandit) (context : seq F)
    (candidate : Candidate) (reward : F) : LinUCBBandit :=
  let x := ensure_shape context in
  let arm := get_arm candidate in
  let r := binary_reward reward in
  let mab' :=
    if ~~ is_fitted m then mab_fit arm r x
    else mab_partial_fit (mab m) arm r x in
  {| alpha := alpha m; mab := mab'; is_fitted := true;
     n_updates := (n_updates m).+1 |}.

(** The random source: the raw draws still to be consumed. *)
Definition rng := seq nat.

(** [RandomInteger(0, n - 1)]; there is no such integer when [n = 0]. *)
Definition random_index (n : nat) (g : rng) : option (nat * rng) :=
  if n == 0%N then None else Some (head 0%N g %% n, behead g)%N.

(** Step 4 of LINUCB_SELECT: the score of one candidate, 0.5 for an arm
    the model does not know. *)
Definition candidate_score (m : LinUCBBandit) (x : 'cV[F]_d)
    (candidate : Candidate) : F :=
  let arm := get_arm candidate in
  if List.existsb (String.eqb arm) ARMS then
    mab_predict_expectations (alpha m) (mab m) x arm
  else 2%:R^-1.

(** LINUCB_SELECT.  [None] stands for the exception raised on an empty
    candidate list.  The sort is stable, so among equal scores the
    earliest candidate comes first. *)
Definition linucb_select (m : LinUCBBandit) (context : seq F)
    (candidates : seq Candidate) (g : rng) : option (nat * F) * rng :=
  let x := ensure_shape context in
  if ~~ is_fitted m then
    match random_index (size candidates) g with
    | Some (idx, g') => (Some (idx, 2%:R^-1), g')
    | None => (None, g)
    end
  else
    let scores :=
      [seq (i, candidate_score m x (nth no_candidate candidates i))
      | i <- iota 0 (size candidates)] in
    let sorted := sort (fun p q => q.2 <= p.2) scores in
    (ohead sorted, g).

(** The hierarchical bandit: one global model and a dictionary of
    per-user models. *)
Record HierarchicalBandit := mkHierarchical {
  global_model : LinUCBBandit;
  user_models : seq (string * LinUCBBandit)
}.

Definition MIN_USER_UPDATES : nat := 10.
Definition MAX_BLEND : F := 7%:R / 10%:R.

Fixpoint find_user_model (models : seq (string * LinUCBBandit))
    (user_id : string) : option LinUCBBandit :=
  match models with
  | [::] => None
  | (u, m) :: rest =>
      if String.eqb u user_id then Some m else find_user_model rest user_id
  end.

Fixpoint store_user_model (models : seq (string * LinUCBBandit))
    (user_id : string) (m : LinUCBBandit) : seq (string * LinUCBBandit) :=
  match models with
  | [::] => [:: (user_id, m)]
  | (u, m0) :: rest =>
      if String.eqb u user_id then (u, m) :: rest
      else (u, m0) :: store_user_model rest user_id m
  end.

(** GetOrCreateUserModel: a user seen for the first time gets a fresh
    model, which is stored. *)
Definition get_or_create_user_model (hb : HierarchicalBandit)
    (user_id : string) : LinUCBBandit * HierarchicalBandit :=
  match find_user_model (user_models hb) user_id with
  | Some m => (m, hb)
  | None =>
      let m := linucb_new (alpha (global_model hb)) in
      (m, {| global_model := global_model hb;
             user_models := store_user_model (user_models hb) user_id m |})
  end.

(** HIERARCHICAL_SELECT: the selection, the bandit (a user model may have
    been created) and the random source left. *)
Definition hierarchical_select (hb : HierarchicalBandit) (user_id : string)
    (context : seq F) (candidates : seq Candidate) (g : rng)
    : option (nat * F) * HierarchicalBandit * rng :=
  match linucb_select (global_model hb) context candidates g with
  | (None, g1) => (None, hb, g1)
  | (Some (global_idx, global_score), g1) =>
      let (user_model, hb1) := get_or_create_user_model hb user_id in
      if (n_updates user_model < MIN_USER_UPDATES)%N then
        (Some (global_idx, global_score), hb1, g1)
      else
        match linucb_select user_model context candidates g1 with
        | (None, g2) => (None, hb1, g2)
        | (Some (user_idx, user_score), g2) =>
            let blend := Num.min ((n_updates user_model)%:R / 50%:R) MAX_BLEND in
            if global_score * (1 - blend) < user_score * blend then
              (Some (user_idx, user_score), hb1, g2)
            else (Some (global_idx, global_score), hb1, g2)
        end
  end.

(** Update of the hierarchical bandit: the global model and the user's
    model learn the same observation. *)
Definition hierarchical_update (hb : HierarchicalBandit) (user_id : string)
    (context : seq F) (candidate : Candidate) (reward : F) : HierarchicalBandit :=
  let (user_model, hb1) := get_or_create_user_model hb user_id in
  {| global_model := linucb_update (global_model hb1) context candidate reward;
     user_models :=
       store_user_model (user_models hb1) user_id
         (linucb_update user_model context candidate reward) |}.

(** BUILD_CONTEXT_FEATURES: stress, the one-hot emotion, the positive
    rate, the normalized birth year, zero padding up to [CONTEXT_DIM]. *)
Definition EMOTIONS : seq string :=
  [:: "anger"; "fear"; "joy"; "love"; "neutral"; "sadness"; "surprise"]%string.
Definition BIRTH_YEAR_CENTER : int := 2000.
Definition BIRTH_YEAR_SCALE : F := 40%:R.
Definition CONTEXT_DIM : nat := 12.

Definition build_context_features (stress_score : F) (emotion : string)
    (user_positive_rate : F) (birth_year : option int) : seq F :=
  let normalized_birth_year :=
    match birth_year with
    | Some y => (y - BIRTH_YEAR_CENTER)%:~R / BIRTH_YEAR_SCALE
    | None => 0
    end in
  let features :=
    stress_score
      :: [seq (if String.eqb e emotion then 1 else 0) | e <- EMOTIONS]
      ++ [:: user_positive_rate; normalized_birth_year] in
  let padded := features ++ nseq (CONTEXT_DIM - size features) 0 in
  take CONTEXT_DIM padded.

(** PROCESS_FEEDBACK, from the fetched positive rate and birth year on:
    a neutral context, the binary reward, the candidate rebuilt from the
    request, and the update of the bandit. *)
Definition process_feedback (hb : HierarchicalBandit) (user_id : string)
    (user_positive_rate : F) (birth_year : option int)
    (content_id content_type : string) (content_year : Z)
    (content_genre : string) (brings_back_memories : bool)
    : HierarchicalBandit * bool :=
  let context :=
    build_context_features 2%:R^-1 "neutral" user_positive_rate birth_year in
  let reward : F := if brings_back_memories then 1 else 0 in
  let candidate :=
    feedback_candidate content_type content_id content_year content_genre in
  (hierarchical_update hb user_id context candidate reward, true).

(** The states of a bandit reachable from a new one by updates, each
    update a triple (context, candidate, reward). *)
Definition bandit_after (alpha0 : F)
    (updates : seq (seq F * Candidate * F)) : LinUCBBandit :=
  foldl (fun m u => linucb_update m u.1.1 u.1.2 u.2) (linucb_new alpha0) updates.

(** A matrix is symmetric positive-definite. *)
Definition symmetric (A : 'M[F]_d) : Prop := A^T = A.
Definition positive_definite (A : 'M[F]_d) : Prop :=
  forall v : 'cV[F]_d, v != 0 -> 0 < dotv v (A *m v).

(** What every reachable arm satisfies: [A] is symmetric
    positive-definite and [theta] is [A^-1 b]. *)
Definition arm_inv (a : ArmModel) : Prop :=
  [/\ symmetric (arm_A a), positive_definite (arm_A a)
     & arm_theta a = invmx (arm_A a) *m arm_b a].

(** A reward of the feedback log: 0 or 1. *)
Definition is_binary (r : F) : bool := (r == 0) || (r == 1).

End Model.

(** Sample inputs, over the rationals and with the deployed context
    dimension.  The rationals have no square root; the samples take the
    constant 0 for it, which switches the exploration bonus off. *)
Definition no_sqrt (x : rat) : rat := 0.

(** The contexts PROCESS_FEEDBACK builds for users born in 1970 and in
    1940 who have no positive feedback yet. *)
Definition sample_context_1970 : seq rat :=
  build_context_features 2%:R^-1 "neutral" 0 (Some 1970%:Z).
Definition sample_context_1940 : seq rat :=
  build_context_features 2%:R^-1 "neutral" 0 (Some 1940%:Z).

(** The bandit after two positive answers about a drama from users born
    in 1970. *)
Definition sample_bandit : LinUCBBandit rat CONTEXT_DIM :=
  bandit_after CONTEXT_DIM 1
    [:: (sample_context_1970, sample_movie, 1);
        (sample_context_1970, sample_movie, 1)].

Definition sample_hierarchical : HierarchicalBandit rat CONTEXT_DIM :=
  {| global_model := sample_bandit; user_models := [::] |}.

End Bandit.

(* ===================================================================== *)
(** ** Algorithm 1, step 4: candidate generation                          *)
(* ===================================================================== *)

Module CandidateGenerator.
Import ListNotations CandidateFilter.
Local Open Scope string_scope.

(** A row of [MovieRecommender.recommend]. *)
Record MovieRow := mkMovieRow {
  movie_id : string;
  movie_title : string;
  movie_genres : string;
  movie_year : Z;
  movie_rating_count : R;
  movie_score : R
}.

(** A row of [SongRecommender.recommend]. *)
Record SongRow := mkSongRow {
  song_id : string;
  song_name : string;
  song_artists : string;
  song_genre : string;
  song_year : Z;
  song_popularity : R;
  song_score : R
}.

(** The candidate of a movie row.  The candidate record keeps the fields
    the selection reads. *)
Definition movie_candidate (birth_year : Z) (movie : MovieRow) : Candidate :=
  let ns :=
    NostalgiaScorer.movie_nostalgia_score birth_year (movie_year movie)
      (movie_rating_count movie) in
  mkCandidate "movie" (movie_id movie) (movie_title movie) (movie_genres movie) ""
              (movie_year movie) ns (movie_score movie).

(** The candidate of a song row: the name is held in [title], the artists
    are not carried. *)
Definition song_candidate (birth_year : Z) (song : SongRow) : Candidate :=
  let ns :=
    NostalgiaScorer.song_nostalgia_score birth_year (song_year song)
      (song_popularity song) in
  mkCandidate "song" (song_id song) (song_name song) "" (song_genre song)
              (song_year song) ns (song_score song).

(** GENERATE CANDIDATES: the movies, then the songs. *)
Definition generate_candidates (birth_year : Z) (movie_df : list MovieRow)
    (song_df : list SongRow) : list Candidate :=
  map (movie_candidate birth_year) movie_df ++
  map (song_candidate birth_year) song_df.

(** The order of [Sort(arm_candidates, by: similarity_score, descending)]:
    [c1] may stand before [c2]. *)
Definition by_similarity (c1 c2 : Candidate) : bool :=
  if Rle_dec (similarity_score c2) (similarity_score c1) then true else false.

(** [c1] is strictly more similar than [c2]. *)
Definition more_similar (c1 c2 : Candidate) : bool :=
  if Rlt_dec (similarity_score c2) (similarity_score c1) then true else false.

(** Sample rows: a drama of 1995 with 20000 ratings, a rock song of 1960
    of popularity 10, a pop song of 1999 of popularity 80. *)
Definition sample_movie_row : MovieRow :=
  mkMovieRow "m7" "A film" "Drama|Romance" 1995 20000 (1 / 2).
Definition sample_song_row : SongRow :=
  mkSongRow "s1" "A song" "A band" "rock" 1960 10 (1 / 2).
Definition sample_pop_row : SongRow :=
  mkSongRow "s2" "A tune" "A singer" "Pop" 1999 80 (3 / 4).
Definition sample_birth_year : Z := 1985.
Definition sample_movie_df : list MovieRow := [ sample_movie_row ].
Definition sample_song_df : list SongRow := [ sample_song_row; sample_pop_row ].

End CandidateGenerator.

(* ===================================================================== *)
(** ** Algorithm 1, steps 4-7: the recommendation                         *)
(* ===================================================================== *)

Module Recommendation.
Import mathcomp.boot.boot mathcomp.order.order mathcomp.algebra.algebra.
Import GRing.Theory Num.Theory Order.Theory.
Import GenreNormalizer CandidateFilter CandidateGenerator Bandit.
Local Open Scope ring_scope.

Set Implicit Arguments.
Unset Strict Implicit.
Unset Printing Implicit Defensive.

Section Pipeline.

Variable F : realFieldType.
Variable sqrtF : F -> F.
Variable d : nat.

(** [Shuffle(candidates)]: the shuffle of the random-number library, on
    the random source. *)
Variable shuffle : seq Candidate -> rng -> seq Candidate * rng.

(** [RandomChoice(s)]; there is nothing to choose from an empty list. *)
Definition random_choice (s : seq Candidate) (g : rng) : option (Candidate * rng) :=
  match random_index (size s) g with
  | Some (i, g') => Some (nth no_candidate s i, g')
  | None => None
  end.

(** The candidates of the arm of the bandit's pick. *)
Definition arm_candidates (candidates : seq Candidate) (selected_idx : nat)
    : seq Candidate :=
  let selected_arm := get_arm (nth no_candidate candidates selected_idx) in
  [seq c <- candidates | String.eqb (get_arm c) selected_arm].

(** Within-arm stochastic selection: one of the five most similar
    candidates of the selected arm.  The sort is stable. *)
Definition within_arm_select (candidates : seq Candidate) (selected_idx : nat)
    (g : rng) : option (Candidate * rng) :=
  let sorted := sort by_similarity (arm_candidates candidates selected_idx) in
  let top_5 := take 5 sorted in
  random_choice top_5 g.

(** GET_RECOMMENDATION, steps 4-7, from the rows of the two recommenders,
    the recent feedback and the context vector of step 3.  [None] stands
    for the exception raised when no candidate is left.  The stress score
    and the emotion of step 2 are returned as they came in. *)
Definition get_recommendation (hb : HierarchicalBandit F d) (user_id : string)
    (birth_year : Z) (movie_df : seq MovieRow) (song_df : seq SongRow)
    (recent_feedback : seq FeedbackEvent) (context : seq F) (g : rng)
    : option (Candidate * F) * HierarchicalBandit F d * rng :=
  let candidates := generate_candidates birth_year movie_df song_df in
  let candidates := filter_candidates recent_feedback candidates in
  let (candidates, g0) := shuffle candidates g in
  match hierarchical_select sqrtF hb user_id context candidates g0 with
  | (None, hb1, g1) => (None, hb1, g1)
  | (Some (selected_idx, bandit_score), hb1, g1) =>
      match within_arm_select candidates selected_idx g1 with
      | Some (selected, g2) => (Some (selected, bandit_score), hb1, g2)
      | None => (None, hb1, g1)
      end
  end.

(** A feedback request, with the positive rate and the birth year that
    step 1 of PROCESS_FEEDBACK fetches for it. *)
Record FeedbackRequest := mkFeedbackRequest {
  fr_user_id : string;
  fr_positive_rate : F;
  fr_birth_year : option int;
  fr_content_id : string;
  fr_content_type : string;
  fr_content_year : Z;
  fr_content_genre : string;
  fr_brings_back_memories : bool
}.

(** The bandit of a new deployment: a new global model, no user model. *)
Definition hierarchical_new (alpha0 : F) : HierarchicalBandit F CONTEXT_DIM :=
  {| global_model := linucb_new CONTEXT_DIM alpha0; user_models := [::] |}.

Definition serve_feedback (hb : HierarchicalBandit F CONTEXT_DIM)
    (r : FeedbackRequest) : HierarchicalBandit F CONTEXT_DIM :=
  (process_feedback hb (fr_user_id r) (fr_positive_rate r) (fr_birth_year r)
     (fr_content_id r) (fr_content_type r) (fr_content_year r)
     (fr_content_genre r) (fr_brings_back_memories r)).1.

(** The bandit after a log of feedback requests, served in order. *)
Definition hierarchical_after (alpha0 : F) (log : seq FeedbackRequest)
    : HierarchicalBandit F CONTEXT_DIM :=
  foldl serve_feedback (hierarchical_new alpha0) log.

(** The number of feedback requests of a user in a log. *)
Definition feedback_count (user_id : string) (log : seq FeedbackRequest) : nat :=
  count (fun r => String.eqb (fr_user_id r) user_id) log.

End Pipeline.

(** A sample shuffle: the list rotated by the next draw. *)
Definition sample_shuffle (s : seq Candidate) (g : rng) : seq Candidate * rng :=
  (rot (head 0%N g %% (size s).+1) s, behead g).

(** A sample log: two answers of user u1 and one of user u2. *)
Definition sample_log : seq (FeedbackRequest rat) :=
  [:: mkFeedbackRequest "u1" 0 (Some 1970%:Z) "m7" "movie" (year sample_movie)
        "Drama|Romance" true;
      mkFeedbackRequest "u2" 0 None "s1" "song" (year sample_song) "rock" false;
      mkFeedbackRequest "u1" 1 (Some 1970%:Z) "s1" "song" (year sample_song)
        "rock" true].

End Recommendation.

(* ===================================================================== *)
(** ** The nostalgic period of the preferences endpoints                  *)
(* ===================================================================== *)

Module Preferences.
Local Open Scope Z_scope.

(** The stored preferences, as far as the nostalgic period reads them:
    nullable integer columns. *)
Record UserPreferences := mkPreferences {
  birthYear : option Z;
  nostalgicPeriodStart : option Z;
  nostalgicPeriodEnd : option Z
}.

(** [prefs.birthYear ? ... : null]: a null or zero birth year is falsy. *)
Definition truthy (n : option Z) : bool :=
  match n with
  | Some v => negb (v =? 0)
  | None => false
  end.

(** The preferences endpoint: the stored period, or the one calculated
    from the birth year:
    [prefs.nostalgicPeriodStart ?? (prefs.birthYear ? prefs.birthYear + 5 : null)]. *)
Definition reported_period_start (prefs : UserPreferences) : option Z :=
  match nostalgicPeriodStart prefs with
  | Some s => Some s
  | None =>
      match birthYear prefs with
      | Some b => if truthy (Some b) then Some (b + 5) else None
      | None => None
      end
  end.

(** [prefs.nostalgicPeriodEnd ??
     (prefs.birthYear ? Math.min(prefs.birthYear + 19, currentYear - 1) : null)]. *)
Definition reported_period_end (prefs : UserPreferences) (currentYear : Z) : option Z :=
  match nostalgicPeriodEnd prefs with
  | Some e => Some e
  | None =>
      match birthYear prefs with
      | Some b =>
          if truthy (Some b) then Some (Z.min (b + 19) (currentYear - 1)) else None
      | None => None
      end
  end.

(** [updatePreferencesSchema], the schema of the update endpoint: each
    year, when given, an integer between 1920 and 2100, and the
    refinement that the end is not before the start when both are given
    (and truthy). *)
Definition year_in_range (y : option Z) : bool :=
  match y with
  | Some v => (1920 <=? v) && (v <=? 2100)
  | None => true
  end.

Definition period_ordered (period_start period_end : option Z) : bool :=
  if truthy period_start && truthy period_end then
    match period_start, period_end with
    | Some s, Some e => s <=? e
    | _, _ => true
    end
  else true.

Definition updatePreferencesSchema (period_start period_end : option Z) : bool :=
  year_in_range period_start && year_in_range period_end &&
  period_ordered period_start period_end.

(** The birth years [bodySchema] of the onboarding endpoint accepts. *)
Definition bodySchema_birthYear (b : Z) : bool := (1920 <=? b) && (b <=? 2020).

End Preferences.

(* ===================================================================== *)
(** * Properties                                                          *)
(* ===================================================================== *)

Module NostalgiaScorerSpec.
Import NostalgiaScorer.
Local Open Scope R_scope.

(** *** Rounding *)

Lemma round_half_even_cases (x : R) :
  round_half_even x = Zfloor x \/
  (round_half_even x = (Zfloor x + 1)%Z /\ IZR (Zfloor x) + 1 / 2 <= x).
Proof.
  unfold round_half_even.
  destruct (total_order_T (x - IZR (Zfloor x)) (1 / 2)) as [[Hlt | Heq] | Hgt].
  - now left.
  - destruct (Z.even (Zfloor x)); [now left | right; split; [reflexivity | lra]].
  - right; split; [reflexivity | lra].
Qed.

Lemma round_half_even_lower (x : R) (k : Z) :
  IZR k <= x -> (k <= round_half_even x)%Z.
Proof.
  intros Hk. pose proof (Zfloor_lub k x Hk) as Hf.
  destruct (round_half_even_cases x) as [-> | [-> _]]; lia.
Qed.

Lemma round_half_even_upper (x : R) (k : Z) :
  x <= IZR k -> (round_half_even x <= k)%Z.
Proof.
  intros Hk. pose proof (Zfloor_bound x) as [Hlo Hhi].
  destruct (round_half_even_cases x) as [-> | [-> Hhalf]].
  - apply le_IZR; lra.
  - assert (IZR (Zfloor x) < IZR k) as Hlt by lra.
    apply lt_IZR in Hlt. lia.
Qed.

Lemma round_half_even_IZR (k : Z) : round_half_even (IZR k) = k.
Proof.
  apply Z.le_antisymm.
  - apply round_half_even_upper; lra.
  - apply round_half_even_lower; lra.
Qed.

Lemma round_half_even_mono (x y : R) :
  x <= y -> (round_half_even x <= round_half_even y)%Z.
Proof.
  intros Hxy.
  pose proof (Zfloor_le x y Hxy) as Hf.
  destruct (Z.eq_dec (Zfloor x) (Zfloor y)) as [Heq | Hne].
  - unfold round_half_even. rewrite <- Heq.
    destruct (total_order_T (x - IZR (Zfloor x)) (1 / 2)) as [[Hx | Hx] | Hx];
    destruct (total_order_T (y - IZR (Zfloor x)) (1 / 2)) as [[Hy | Hy] | Hy];
    try lra; destruct (Z.even (Zfloor x)); lia.
  - assert (round_half_even x <= Zfloor x + 1)%Z
      by (destruct (round_half_even_cases x) as [-> | [-> _]]; lia).
    assert (Zfloor y <= round_half_even y)%Z
      by (destruct (round_half_even_cases y) as [-> | [-> _]]; lia).
    lia.
Qed.

Lemma pow10_3 : 10 ^ 3 = 1000.
Proof. simpl; lra. Qed.

Lemma round_ndigits_3_mono (x y : R) :
  x <= y -> round_ndigits x 3 <= round_ndigits y 3.
Proof.
  intros Hxy. unfold round_ndigits. rewrite pow10_3.
  assert (round_half_even (x * 1000) <= round_half_even (y * 1000))%Z as H
    by (apply round_half_even_mono; lra).
  apply IZR_le in H. lra.
Qed.

Lemma round_ndigits_3_lower (x : R) (k : Z) :
  IZR k / 1000 <= x -> IZR k / 1000 <= round_ndigits x 3.
Proof.
  intros Hk. unfold round_ndigits. rewrite pow10_3.
  assert (k <= round_half_even (x * 1000))%Z as H
    by (apply round_half_even_lower; lra).
  apply IZR_le in H. lra.
Qed.

Lemma round_ndigits_3_upper (x : R) (k : Z) :
  x <= IZR k / 1000 -> round_ndigits x 3 <= IZR k / 1000.
Proof.
  intros Hk. unfold round_ndigits. rewrite pow10_3.
  assert (round_half_even (x * 1000) <= k)%Z as H
    by (apply round_half_even_upper; lra).
  apply IZR_le in H. lra.
Qed.

(** *** Clamping *)

Lemma clamp01_bounds (x : R) : 0 <= clamp01 x <= 1.
Proof.
  unfold clamp01. split.
  - apply Rmin_glb; [lra | apply Rmax_l].
  - apply Rmin_l.
Qed.

Lemma clamp01_mono (x y : R) : x <= y -> clamp01 x <= clamp01 y.
Proof.
  intros H. unfold clamp01.
  apply Rle_min_compat_l, Rle_max_compat_l, H.
Qed.

Lemma clamp01_id (x : R) : 0 <= x <= 1 -> clamp01 x = x.
Proof.
  intros [H0 H1]. unfold clamp01.
  rewrite (Rmax_right 0 x H0). now apply Rmin_right.
Qed.

(** *** The exponential *)

Lemma exp_le_mono (x y : R) : x <= y -> exp x <= exp y.
Proof.
  intros [Hlt | ->]; [left; now apply exp_increasing | right; reflexivity].
Qed.

Lemma exp_neg_le_1 (t : R) : 0 <= t -> exp (- t) <= 1.
Proof.
  intros Ht. rewrite <- exp_0. apply exp_le_mono. lra.
Qed.

Lemma exp_neg_eq_1 (t : R) : exp (- t) = 1 -> t = 0.
Proof.
  intros H. destruct (Rtotal_order t 0) as [Hlt | [-> | Hgt]]; [| reflexivity |].
  - assert (exp 0 < exp (- t)) by (apply exp_increasing; lra).
    rewrite exp_0 in *. lra.
  - assert (exp (- t) < exp 0) by (apply exp_increasing; lra).
    rewrite exp_0 in *. lra.
Qed.

(** [exp (- t) < 1/2] once [1 <= t], from [1 + x < exp x]. *)
Lemma exp_neg_lt_half (t : R) : 1 <= t -> exp (- t) < 1 / 2.
Proof.
  intros Ht. rewrite exp_Ropp.
  assert (2 < exp t) as H by (pose proof (exp_ineq1 t); lra).
  apply Rmult_lt_reg_r with (exp t); [lra |].
  rewrite Rinv_l; lra.
Qed.

(** *** The age component *)

Lemma age_nostalgia_pos (a : Z) : 0 < age_nostalgia a.
Proof.
  unfold age_nostalgia. destruct (0 <=? a)%Z.
  - apply exp_pos.
  - apply Rmult_lt_0_compat; apply exp_pos.
Qed.

Lemma age_nostalgia_postbirth (a : Z) :
  (0 <= a)%Z -> age_nostalgia a = exp (- ((IZR a - 13) ^ 2 / 128)).
Proof.
  intros Ha. unfold age_nostalgia, PEAK_AGE, WIDTH.
  rewrite (proj2 (Z.leb_le 0 a) Ha). f_equal. lra.
Qed.

Lemma age_nostalgia_prebirth (a : Z) :
  (a < 0)%Z ->
  age_nostalgia a = exp (- (169 / 128)) * exp (- (3 / 100 * - IZR a)).
Proof.
  intros Ha. unfold age_nostalgia, PEAK_AGE, WIDTH, PREBIRTH_DECAY.
  rewrite (proj2 (Z.leb_gt 0 a) Ha).
  apply IZR_lt in Ha.
  rewrite Rabs_left by lra. f_equal; f_equal; lra.
Qed.

Lemma age_nostalgia_le_1 (a : Z) : age_nostalgia a <= 1.
Proof.
  destruct (Z_lt_le_dec a 0) as [Hneg | Hpos].
  - rewrite age_nostalgia_prebirth by assumption.
    apply IZR_lt in Hneg.
    assert (exp (- (169 / 128)) <= 1) by (apply exp_neg_le_1; lra).
    assert (exp (- (3 / 100 * - IZR a)) <= 1) by (apply exp_neg_le_1; lra).
    pose proof (exp_pos (- (169 / 128))).
    pose proof (exp_pos (- (3 / 100 * - IZR a))). nra.
  - rewrite age_nostalgia_postbirth by assumption.
    apply exp_neg_le_1.
    pose proof (pow2_ge_0 (IZR a - 13)). lra.
Qed.

Lemma age_nostalgia_prebirth_lt_half (a : Z) :
  (a < 0)%Z -> age_nostalgia a < 1 / 2.
Proof.
  intros Ha. rewrite age_nostalgia_prebirth by assumption.
  apply IZR_lt in Ha.
  assert (exp (- (169 / 128)) < 1 / 2) by (apply exp_neg_lt_half; lra).
  assert (exp (- (3 / 100 * - IZR a)) <= 1) by (apply exp_neg_le_1; lra).
  pose proof (exp_pos (- (169 / 128))).
  pose proof (exp_pos (- (3 / 100 * - IZR a))). nra.
Qed.

Lemma age_nostalgia_eq_1 (a : Z) : age_nostalgia a = 1 -> a = 13%Z.
Proof.
  intros H. destruct (Z_lt_le_dec a 0) as [Hneg | Hpos].
  - pose proof (age_nostalgia_prebirth_lt_half a Hneg). lra.
  - rewrite age_nostalgia_postbirth in H by assumption.
    apply exp_neg_eq_1 in H.
    assert ((IZR a - 13) * (IZR a - 13) = 0) as H0 by lra.
    apply Rmult_integral in H0. apply eq_IZR. lra.
Qed.

(** Within post-birth ages the score falls as the distance to the peak
    grows; within pre-birth ages it falls as the age gets more negative. *)
Lemma age_nostalgia_postbirth_mono (a1 a2 : Z) :
  (0 <= a1)%Z -> (0 <= a2)%Z ->
  Rabs (IZR a1 - 13) <= Rabs (IZR a2 - 13) ->
  age_nostalgia a2 <= age_nostalgia a1.
Proof.
  intros H1 H2 Habs.
  rewrite !age_nostalgia_postbirth by assumption.
  apply exp_le_mono.
  assert ((IZR a1 - 13) ^ 2 <= (IZR a2 - 13) ^ 2) as Hsq.
  { rewrite <- (pow2_abs (IZR a1 - 13)), <- (pow2_abs (IZR a2 - 13)).
    pose proof (Rabs_pos (IZR a1 - 13)). nra. }
  lra.
Qed.

Lemma age_nostalgia_prebirth_mono (a1 a2 : Z) :
  (a1 < 0)%Z -> (a2 < 0)%Z ->
  Rabs (IZR a1 - 13) <= Rabs (IZR a2 - 13) ->
  age_nostalgia a2 <= age_nostalgia a1.
Proof.
  intros H1 H2 Habs.
  rewrite !age_nostalgia_prebirth by assumption.
  apply IZR_lt in H1, H2.
  rewrite !Rabs_left in Habs by lra.
  apply Rmult_le_compat_l; [left; apply exp_pos |].
  apply exp_le_mono. lra.
Qed.

(** *** The popularity component *)

Lemma ln_1_plus_pos (x : R) : 0 < x -> 0 < ln (1 + x).
Proof.
  intros Hx. rewrite <- ln_1. apply ln_increasing; lra.
Qed.

Lemma popularity_score_nonneg (rc mc : R) (lin : bool) :
  0 <= popularity_score rc mc lin.
Proof.
  unfold popularity_score.
  destruct (Rle_dec rc 0) as [|Hrc]; [lra |].
  destruct (Rle_dec mc 0) as [|Hmc]; [lra |].
  assert (0 < rc / mc) by (apply Rdiv_lt_0_compat; lra).
  destruct lin.
  - apply Rmin_glb; lra.
  - left. apply Rdiv_lt_0_compat; apply ln_1_plus_pos; lra.
Qed.

(** The popularity score is at most 1 under linear scaling, and under
    logarithmic scaling for a rating count not above the maximum. *)
Lemma popularity_score_linear_le_1 (rc mc : R) :
  popularity_score rc mc true <= 1.
Proof.
  unfold popularity_score.
  destruct (Rle_dec rc 0); [lra |].
  destruct (Rle_dec mc 0); [lra |].
  apply Rmin_l.
Qed.

Lemma popularity_score_log_le_1 (rc mc : R) :
  rc <= mc -> popularity_score rc mc false <= 1.
Proof.
  intros Hle. unfold popularity_score.
  destruct (Rle_dec rc 0) as [|Hrc]; [lra |].
  destruct (Rle_dec mc 0) as [|Hmc]; [lra |].
  assert (0 < ln (1 + mc)) as Hm by (apply ln_1_plus_pos; lra).
  assert (ln (1 + rc) <= ln (1 + mc)) as Hl.
  { destruct Hle as [Hlt | ->]; [left; apply ln_increasing; lra | lra]. }
  apply Rmult_le_reg_r with (ln (1 + mc)); [assumption |].
  unfold Rdiv. rewrite Rmult_assoc, Rinv_l; lra.
Qed.

(** X11: the popularity score is in [0, 1] under linear scaling, and under
    logarithmic scaling when the rating count is not above the
    maximum. *)
Theorem popularity_score_range (rating_count max_count : R) (use_linear : bool) :
  use_linear = true \/ rating_count <= max_count ->
  0 <= popularity_score rating_count max_count use_linear <= 1.
Proof.
  intros Hmode. split; [apply popularity_score_nonneg |].
  destruct use_linear.
  - apply popularity_score_linear_le_1.
  - destruct Hmode as [Hlin | Hle]; [discriminate | now apply popularity_score_log_le_1].
Qed.

(** X11, at a sample input: a movie with 10000 ratings. *)
Lemma popularity_score_range_witness :
  (false = true \/ 10000 <= MAX_MOVIE_RATINGS) /\
  0 <= popularity_score 10000 MAX_MOVIE_RATINGS false <= 1.
Proof.
  assert (false = true \/ 10000 <= MAX_MOVIE_RATINGS) as Hmode
    by (right; unfold MAX_MOVIE_RATINGS; lra).
  split; [exact Hmode |].
  exact (popularity_score_range 10000 MAX_MOVIE_RATINGS false Hmode).
Defined.

Lemma popularity_score_at_max (mc : R) (lin : bool) :
  0 < mc -> popularity_score mc mc lin = 1.
Proof.
  intros Hmc. unfold popularity_score.
  destruct (Rle_dec mc 0); [lra |].
  destruct lin.
  - unfold Rdiv. rewrite Rinv_r by lra. apply Rmin_left; lra.
  - pose proof (ln_1_plus_pos mc Hmc). unfold Rdiv. apply Rinv_r. lra.
Qed.

(** [exp (- t) <= 1 / (1 + t)] for [0 <= t]. *)
Lemma exp_neg_le_inv (t : R) : 0 <= t -> exp (- t) <= / (1 + t).
Proof.
  intros Ht. rewrite exp_Ropp.
  apply Rinv_le_contravar; [lra | apply exp_ineq1_le].
Qed.

(** *** The score *)

Lemma final_score_unfold (b r : Z) (rc mc : R) (lin : bool) :
  final_score b r rc mc lin =
  age_nostalgia (r - b) * (7 / 10 + 3 / 10 * popularity_score rc mc lin) +
  (if (r - b <? 0)%Z then popularity_score rc mc lin * (4 / 10) else 0).
Proof. reflexivity. Qed.

Lemma final_score_postbirth (b r : Z) (rc mc : R) (lin : bool) :
  (0 <= r - b)%Z ->
  final_score b r rc mc lin =
  age_nostalgia (r - b) * (7 / 10 + 3 / 10 * popularity_score rc mc lin).
Proof.
  intros H. rewrite final_score_unfold, (proj2 (Z.ltb_ge _ 0) H). lra.
Qed.

Lemma final_score_prebirth (b r : Z) (rc mc : R) (lin : bool) :
  (r - b < 0)%Z ->
  final_score b r rc mc lin =
  age_nostalgia (r - b) * (7 / 10 + 3 / 10 * popularity_score rc mc lin) +
  popularity_score rc mc lin * (4 / 10).
Proof.
  intros H. now rewrite final_score_unfold, (proj2 (Z.ltb_lt _ 0) H).
Qed.

Lemma final_score_nonneg (b r : Z) (rc mc : R) (lin : bool) :
  0 <= final_score b r rc mc lin.
Proof.
  rewrite final_score_unfold.
  pose proof (age_nostalgia_pos (r - b)).
  pose proof (popularity_score_nonneg rc mc lin).
  destruct (r - b <? 0)%Z; nra.
Qed.

Lemma nostalgia_score_mono_final (b1 r1 b2 r2 : Z) (rc1 mc1 rc2 mc2 : R)
    (lin1 lin2 : bool) :
  final_score b2 r2 rc2 mc2 lin2 <= final_score b1 r1 rc1 mc1 lin1 ->
  nostalgia_score b2 r2 rc2 mc2 lin2 <= nostalgia_score b1 r1 rc1 mc1 lin1.
Proof.
  intros H. unfold nostalgia_score.
  apply round_ndigits_3_mono, clamp01_mono, H.
Qed.

Lemma final_score_at_peak (b r : Z) (mc : R) (lin : bool) :
  (r - b = 13)%Z -> 0 < mc -> final_score b r mc mc lin = 1.
Proof.
  intros Hage Hmc. rewrite final_score_postbirth by lia. rewrite Hage.
  rewrite popularity_score_at_max by assumption.
  rewrite age_nostalgia_postbirth by lia.
  replace (- ((13 - 13) ^ 2 / 128)) with 0 by lra.
  rewrite exp_0. lra.
Qed.

Lemma round_ndigits_3_one : round_ndigits 1 3 = 1.
Proof.
  unfold round_ndigits. rewrite pow10_3.
  replace (1 * 1000) with (IZR 1000) by lra.
  rewrite round_half_even_IZR. lra.
Qed.

Lemma nostalgia_score_le_1 (b r : Z) (rc mc : R) (lin : bool) :
  nostalgia_score b r rc mc lin <= 1.
Proof.
  unfold nostalgia_score.
  pose proof (clamp01_bounds (final_score b r rc mc lin)) as Hc.
  apply Rle_trans with (IZR 1000 / 1000); [| lra].
  apply round_ndigits_3_upper. lra.
Qed.

(** C1: the nostalgia score lies in [0, 1], whatever the birth year, the
    release year, the popularity inputs and the scaling mode. *)
Theorem nostalgia_score_in_unit_interval (birth_year release_year : Z)
    (rating_count max_count : R) (use_linear : bool) :
  0 <= nostalgia_score birth_year release_year rating_count max_count use_linear <= 1.
Proof.
  split; [| apply nostalgia_score_le_1].
  unfold nostalgia_score.
  pose proof (clamp01_bounds (final_score birth_year release_year rating_count
                                max_count use_linear)) as Hc.
  apply Rle_trans with (IZR 0 / 1000); [lra |].
  apply round_ndigits_3_lower. lra.
Qed.

(** C2: when the content is released thirteen years after birth and its
    popularity input equals the maximum, the score is exactly 1, and no
    input scores higher. *)
Theorem nostalgia_score_peak (birth_year release_year : Z)
    (max_count : R) (use_linear : bool) :
  (release_year - birth_year = 13)%Z ->
  0 < max_count ->
  nostalgia_score birth_year release_year max_count max_count use_linear = 1 /\
  forall (b r : Z) (rc mc : R) (lin : bool),
    nostalgia_score b r rc mc lin <=
    nostalgia_score birth_year release_year max_count max_count use_linear.
Proof.
  intros Hage Hmc.
  assert (nostalgia_score birth_year release_year max_count max_count use_linear = 1)
    as Hone.
  { unfold nostalgia_score.
    rewrite final_score_at_peak by assumption.
    rewrite clamp01_id by lra. apply round_ndigits_3_one. }
  split; [exact Hone |].
  intros b r rc mc lin. rewrite Hone.
  apply nostalgia_score_le_1.
Qed.

(** C2, at the sample input: a movie of 2003 with the maximal rating
    count, for a user born in 1990. *)
Lemma nostalgia_score_peak_witness :
  (2003 - 1990 = 13)%Z /\ 0 < MAX_MOVIE_RATINGS /\
  movie_nostalgia_score 1990 2003 MAX_MOVIE_RATINGS = 1.
Proof.
  assert (0 < MAX_MOVIE_RATINGS) as Hmax by (unfold MAX_MOVIE_RATINGS; lra).
  split; [reflexivity | split; [exact Hmax |]].
  exact (proj1 (nostalgia_score_peak 1990 2003 MAX_MOVIE_RATINGS false
                  eq_refl Hmax)).
Defined.

Lemma final_score_postbirth_mono (b1 r1 b2 r2 : Z) (rc mc : R) (lin : bool) :
  (0 <= r1 - b1)%Z -> (0 <= r2 - b2)%Z ->
  Rabs (IZR (r1 - b1) - 13) <= Rabs (IZR (r2 - b2) - 13) ->
  final_score b2 r2 rc mc lin <= final_score b1 r1 rc mc lin.
Proof.
  intros H1 H2 Hdist. rewrite !final_score_postbirth by assumption.
  pose proof (popularity_score_nonneg rc mc lin) as Hp.
  pose proof (age_nostalgia_postbirth_mono _ _ H1 H2 Hdist) as Hage. nra.
Qed.

Lemma final_score_prebirth_mono (b1 r1 b2 r2 : Z) (rc mc : R) (lin : bool) :
  (r1 - b1 < 0)%Z -> (r2 - b2 < 0)%Z ->
  Rabs (IZR (r1 - b1) - 13) <= Rabs (IZR (r2 - b2) - 13) ->
  final_score b2 r2 rc mc lin <= final_score b1 r1 rc mc lin.
Proof.
  intros H1 H2 Hdist. rewrite !final_score_prebirth by assumption.
  pose proof (popularity_score_nonneg rc mc lin) as Hp.
  pose proof (age_nostalgia_prebirth_mono _ _ H1 H2 Hdist) as Hage. nra.
Qed.

(** Pre-birth content scores at least as high as post-birth content that
    is no nearer to the peak. *)
Lemma age_nostalgia_mixed_mono (a1 a2 : Z) :
  (a1 < 0)%Z -> (0 <= a2)%Z ->
  Rabs (IZR a1 - 13) <= Rabs (IZR a2 - 13) ->
  age_nostalgia a2 <= age_nostalgia a1.
Proof.
  intros H1 H2 Habs.
  rewrite (age_nostalgia_prebirth a1), (age_nostalgia_postbirth a2) by assumption.
  apply IZR_lt in H1. rewrite Rabs_left in Habs by lra.
  rewrite <- exp_plus. apply exp_le_mono.
  assert ((- (IZR a1 - 13)) ^ 2 <= (IZR a2 - 13) ^ 2) as Hsq.
  { rewrite <- (pow2_abs (IZR a2 - 13)).
    pose proof (Rabs_pos (IZR a2 - 13)). nra. }
  nra.
Qed.

Lemma final_score_mixed_mono (b1 r1 b2 r2 : Z) (rc mc : R) (lin : bool) :
  (r1 - b1 < 0)%Z -> (0 <= r2 - b2)%Z ->
  Rabs (IZR (r1 - b1) - 13) <= Rabs (IZR (r2 - b2) - 13) ->
  final_score b2 r2 rc mc lin <= final_score b1 r1 rc mc lin.
Proof.
  intros H1 H2 Hdist.
  rewrite (final_score_prebirth b1 r1), (final_score_postbirth b2 r2) by assumption.
  pose proof (popularity_score_nonneg rc mc lin) as Hp.
  pose proof (age_nostalgia_mixed_mono _ _ H1 H2 Hdist) as Hage. nra.
Qed.

(** X5: of two pre-birth release years the older one never scores
    higher, at equal popularity. *)
Theorem nostalgia_score_prebirth_older (birth_year release1 release2 : Z)
    (rating_count max_count : R) (use_linear : bool) :
  (release2 <= release1)%Z -> (release1 < birth_year)%Z ->
  nostalgia_score birth_year release2 rating_count max_count use_linear <=
  nostalgia_score birth_year release1 rating_count max_count use_linear.
Proof.
  intros Hold Hpre. apply nostalgia_score_mono_final.
  apply final_score_prebirth_mono; try lia.
  assert (IZR (release2 - birth_year) <= IZR (release1 - birth_year)) as H21
    by (apply IZR_le; lia).
  assert (IZR (release1 - birth_year) < 0) as H1 by (apply IZR_lt; lia).
  rewrite !Rabs_left by lra. lra.
Qed.

(** X5, at a sample input: songs of 1970 and 1985 for a user born in
    1990. *)
Lemma nostalgia_score_prebirth_older_witness :
  (1970 <= 1985)%Z /\ (1985 < 1990)%Z /\
  nostalgia_score 1990 1970 50 100 true <= nostalgia_score 1990 1985 50 100 true.
Proof.
  assert (1970 <= 1985)%Z as Hold by lia.
  assert (1985 < 1990)%Z as Hpre by lia.
  split; [exact Hold | split; [exact Hpre |]].
  exact (nostalgia_score_prebirth_older 1990 1985 1970 50 100 true Hold Hpre).
Defined.

(** C3 fails across the birth boundary: for a user born in 1960, a song
    of 2000 (age 40, 27 years from the peak) scores lower than a song of
    1940 (age -20, 33 years from the peak) at the same, maximal
    popularity. *)
Lemma nostalgia_score_not_monotone_across_birth :
  Rabs (IZR (2000 - 1960) - PEAK_AGE) <= Rabs (IZR (1940 - 1960) - PEAK_AGE) /\
  song_nostalgia_score 1960 2000 100 < song_nostalgia_score 1960 1940 100.
Proof.
  unfold song_nostalgia_score, MAX_SONG_POPULARITY.
  split.
  - unfold PEAK_AGE. simpl Z.sub.
    rewrite Rabs_right by lra. rewrite Rabs_left by lra. lra.
  - assert (final_score 1960 2000 100 100 true <= 200 / 1000) as H1.
    { rewrite final_score_postbirth by lia. simpl Z.sub.
      rewrite popularity_score_at_max by lra.
      rewrite age_nostalgia_postbirth by lia.
      assert (exp (- ((40 - 13) ^ 2 / 128)) <= / (1 + (40 - 13) ^ 2 / 128))
        by (apply exp_neg_le_inv; lra).
      assert (/ (1 + (40 - 13) ^ 2 / 128) <= 2 / 10).
      { replace (2 / 10) with (/ 5) by lra.
        apply Rinv_le_contravar; lra. }
      lra. }
    assert (400 / 1000 <= final_score 1960 1940 100 100 true) as H2.
    { rewrite final_score_prebirth by lia. simpl Z.sub.
      rewrite popularity_score_at_max by lra.
      pose proof (age_nostalgia_pos (-20)). lra. }
    pose proof (final_score_nonneg 1960 2000 100 100 true) as H0.
    unfold nostalgia_score.
    apply Rle_lt_trans with (IZR 200 / 1000).
    + apply round_ndigits_3_upper. rewrite clamp01_id; lra.
    + apply Rlt_le_trans with (IZR 400 / 1000); [lra |].
      apply round_ndigits_3_lower.
      pose proof (clamp01_mono (400 / 1000) _ H2) as Hc.
      rewrite clamp01_id in Hc by lra. lra.
Qed.

(** C3, amended: for the same popularity inputs, the score does not
    increase as the distance of the age at release from 13 grows, except
    when the nearer release is post-birth and the farther one is
    pre-birth. *)
Theorem nostalgia_score_monotone_unless_crossing
    (birth1 release1 birth2 release2 : Z)
    (rating_count max_count : R) (use_linear : bool) :
  ((release2 - birth2 < 0)%Z -> (release1 - birth1 < 0)%Z) ->
  Rabs (IZR (release1 - birth1) - PEAK_AGE) <=
  Rabs (IZR (release2 - birth2) - PEAK_AGE) ->
  nostalgia_score birth2 release2 rating_count max_count use_linear <=
  nostalgia_score birth1 release1 rating_count max_count use_linear.
Proof.
  intros Hside Hdist. unfold PEAK_AGE in Hdist.
  apply nostalgia_score_mono_final.
  destruct (Z_lt_le_dec (release2 - birth2) 0) as [H2 | H2].
  - apply final_score_prebirth_mono; auto.
  - destruct (Z_lt_le_dec (release1 - birth1) 0) as [H1 | H1].
    + now apply final_score_mixed_mono.
    + now apply final_score_postbirth_mono.
Qed.

(** C3, amended, at a sample input: born 1990, a song of 1985 (age -5)
    against a song of 1970 (age -20). *)
Lemma nostalgia_score_monotone_unless_crossing_witness :
  ((1970 - 1990 < 0)%Z -> (1985 - 1990 < 0)%Z) /\
  Rabs (IZR (1985 - 1990) - PEAK_AGE) <= Rabs (IZR (1970 - 1990) - PEAK_AGE) /\
  song_nostalgia_score 1990 1970 50 <= song_nostalgia_score 1990 1985 50.
Proof.
  assert ((1970 - 1990 < 0)%Z -> (1985 - 1990 < 0)%Z) as Hside
    by (intros _; simpl; lia).
  assert (Rabs (IZR (1985 - 1990) - PEAK_AGE) <=
          Rabs (IZR (1970 - 1990) - PEAK_AGE)) as Hdist.
  { unfold PEAK_AGE. simpl Z.sub. rewrite !Rabs_left by lra. lra. }
  split; [exact Hside | split; [exact Hdist |]].
  exact (nostalgia_score_monotone_unless_crossing 1990 1985 1990 1970 50
           MAX_SONG_POPULARITY true Hside Hdist).
Defined.

(** C10 fails with logarithmic scaling when the rating count exceeds the
    normalisation constant: for a movie released at the peak age with
    200000 ratings against the maximum of 100000, the popularity score
    exceeds 1, the unclamped sum exceeds 1, and the clamp changes it. *)
Lemma final_score_exceeds_one :
  1 < popularity_score 200000 MAX_MOVIE_RATINGS false /\
  1 < final_score 1990 2003 200000 MAX_MOVIE_RATINGS false /\
  clamp01 (final_score 1990 2003 200000 MAX_MOVIE_RATINGS false) <>
    final_score 1990 2003 200000 MAX_MOVIE_RATINGS false.
Proof.
  assert (1 < popularity_score 200000 MAX_MOVIE_RATINGS false) as Hpop.
  { unfold popularity_score, MAX_MOVIE_RATINGS.
    destruct (Rle_dec 200000 0); [lra |]. destruct (Rle_dec 100000 0); [lra |].
    assert (0 < ln (1 + 100000)) as Hm by (apply ln_1_plus_pos; lra).
    assert (ln (1 + 100000) < ln (1 + 200000)) as Hlt
      by (apply ln_increasing; lra).
    apply Rmult_lt_reg_r with (ln (1 + 100000)); [assumption |].
    unfold Rdiv. rewrite Rmult_assoc, Rinv_l; lra. }
  assert (1 < final_score 1990 2003 200000 MAX_MOVIE_RATINGS false) as H.
  { rewrite final_score_postbirth by lia. simpl Z.sub.
    rewrite age_nostalgia_postbirth by lia.
    replace (- ((13 - 13) ^ 2 / 128)) with 0 by lra. rewrite exp_0. lra. }
  split; [exact Hpop | split; [exact H |]].
  pose proof (clamp01_bounds (final_score 1990 2003 200000 MAX_MOVIE_RATINGS false)).
  lra.
Qed.

(** C10, amended: when the popularity score is at most 1, the unclamped
    sum is in [0, 1], the clamp leaves it unchanged, and it equals 1 only
    at the peak age with popularity score 1. *)
Theorem final_score_in_unit_interval (birth_year release_year : Z)
    (rating_count max_count : R) (use_linear : bool) :
  popularity_score rating_count max_count use_linear <= 1 ->
  0 <= final_score birth_year release_year rating_count max_count use_linear <= 1 /\
  clamp01 (final_score birth_year release_year rating_count max_count use_linear) =
    final_score birth_year release_year rating_count max_count use_linear /\
  (final_score birth_year release_year rating_count max_count use_linear = 1 ->
   (release_year - birth_year = 13)%Z /\
   popularity_score rating_count max_count use_linear = 1).
Proof.
  intros Hp1.
  pose proof (popularity_score_nonneg rating_count max_count use_linear) as Hp0.
  pose proof (final_score_nonneg birth_year release_year rating_count max_count
                use_linear) as Hs0.
  pose proof (age_nostalgia_pos (release_year - birth_year)) as Ha0.
  pose proof (age_nostalgia_le_1 (release_year - birth_year)) as Ha1.
  assert (final_score birth_year release_year rating_count max_count use_linear <= 1 /\
          (final_score birth_year release_year rating_count max_count use_linear = 1 ->
           age_nostalgia (release_year - birth_year) = 1 /\
           popularity_score rating_count max_count use_linear = 1)) as [Hs1 Heq].
  { rewrite final_score_unfold.
    destruct (Z.ltb_spec (release_year - birth_year) 0) as [Hneg | Hpos].
    - pose proof (age_nostalgia_prebirth_lt_half _ Hneg). split; [nra | intros; nra].
    - split; [nra | intros; split; nra]. }
  split; [lra | split; [apply clamp01_id; lra |]].
  intros H1. destruct (Heq H1) as [Hage Hp]. split; [| exact Hp].
  now apply age_nostalgia_eq_1.
Qed.

(** C10, amended, at a sample input: a song of 1985 with popularity 80
    out of 100 for a user born in 1990. *)
Lemma final_score_in_unit_interval_witness :
  popularity_score 80 MAX_SONG_POPULARITY true <= 1 /\
  0 <= final_score 1990 1985 80 MAX_SONG_POPULARITY true <= 1.
Proof.
  pose proof (popularity_score_linear_le_1 80 MAX_SONG_POPULARITY) as Hp.
  split; [exact Hp |].
  exact (proj1 (final_score_in_unit_interval 1990 1985 80 MAX_SONG_POPULARITY
                  true Hp)).
Defined.

End NostalgiaScorerSpec.

Module GenreNormalizerSpec.
Import GenreNormalizer ListNotations.
Local Open Scope string_scope.

Lemma map_get_in (key : string) (m : list (string * string)) (v : string) :
  map_get key m = Some v -> In v (map snd m).
Proof.
  induction m as [| [k w] rest IH]; simpl; [discriminate |].
  destruct (String.eqb key k).
  - intros [= ->]. now left.
  - intros H. right. now apply IH.
Qed.

Lemma normalize_genre_movie (raw : string) :
  In (normalize_genre raw "movie") MOVIE_ARMS.
Proof.
  unfold normalize_genre. destruct (String.eqb raw ""); simpl String.eqb; cbv iota.
  - simpl; tauto.
  - destruct (map_get _ MOVIE_GENRE_MAP) as [arm |] eqn:Hget; [| simpl; tauto].
    apply map_get_in in Hget. simpl in Hget. simpl.
    repeat (destruct Hget as [<- | Hget]; [tauto |]). destruct Hget.
Qed.

Lemma normalize_genre_song (raw content_type : string) :
  String.eqb content_type "movie" = false ->
  In (normalize_genre raw content_type) SONG_ARMS.
Proof.
  intros Hct. unfold normalize_genre. rewrite Hct.
  destruct (String.eqb raw "").
  - simpl; tauto.
  - destruct (map_get _ SONG_GENRE_MAP) as [arm |] eqn:Hget; [| simpl; tauto].
    apply map_get_in in Hget. simpl in Hget. simpl.
    repeat (destruct Hget as [<- | Hget]; [tauto |]). destruct Hget.
Qed.

(** X1, totality: the normalizer is a function, and every value it takes
    is one of the twelve arms. *)
Theorem normalize_genre_in_arms (raw content_type : string) :
  In (normalize_genre raw content_type) ARMS.
Proof.
  destruct (String.eqb content_type "movie") eqn:Hct.
  - apply String.eqb_eq in Hct. subst content_type.
    pose proof (normalize_genre_movie raw) as H. simpl in H |- *. tauto.
  - pose proof (normalize_genre_song raw content_type Hct) as H.
    simpl in H |- *. tauto.
Qed.

(** X2: for movies the normalizer is idempotent. *)
Theorem normalize_genre_movie_idempotent (raw : string) :
  normalize_genre (normalize_genre raw "movie") "movie" = normalize_genre raw "movie".
Proof.
  pose proof (normalize_genre_movie raw) as H. simpl in H.
  repeat (destruct H as [<- | H]; [reflexivity |]). destruct H.
Qed.

(** X3: for songs the normalizer is idempotent on every input whose arm
    is not [hiphop]. *)
Theorem normalize_genre_song_idempotent (raw content_type : string) :
  String.eqb content_type "movie" = false ->
  normalize_genre raw content_type <> "hiphop" ->
  normalize_genre (normalize_genre raw content_type) content_type =
  normalize_genre raw content_type.
Proof.
  intros Hct Hne.
  pose proof (normalize_genre_song raw content_type Hct) as H. simpl in H.
  repeat (destruct H as [H | H];
    [ rewrite <- H in *;
      first [ now elim Hne | unfold normalize_genre; rewrite Hct; reflexivity ] |]).
  destruct H.
Qed.

(** C4, the input on which idempotence fails: "rap" is normalized to the
    arm "hiphop", and "hiphop" itself is no key of the song map, so
    normalizing it again gives "other_song". *)
Theorem normalize_genre_hiphop_not_fixed :
  normalize_genre "rap" "song" = "hiphop" /\
  normalize_genre "hiphop" "song" = "other_song" /\
  normalize_genre (normalize_genre "rap" "song") "song" <>
    normalize_genre "rap" "song".
Proof.
  split; [reflexivity | split; [reflexivity | discriminate]].
Qed.

(** X3, at a multi-genre song string. *)
Lemma normalize_genre_song_idempotent_witness :
  String.eqb "song" "movie" = false /\
  normalize_genre " Indie|Pop" "song" <> "hiphop" /\
  normalize_genre (normalize_genre " Indie|Pop" "song") "song" =
    normalize_genre " Indie|Pop" "song".
Proof.
  assert (String.eqb "song" "movie" = false) as Hct by reflexivity.
  assert (normalize_genre " Indie|Pop" "song" <> "hiphop") as Hne by discriminate.
  split; [exact Hct | split; [exact Hne |]].
  exact (normalize_genre_song_idempotent " Indie|Pop" "song" Hct Hne).
Defined.

End GenreNormalizerSpec.

Module CandidateFilterSpec.
Import CandidateFilter ListNotations.
Local Open Scope R_scope.

Lemma filter_none {A : Type} (p : A -> bool) (l : list A) :
  (forall x, In x l -> p x = false) -> filter p l = [].
Proof.
  induction l as [| x l IH]; intros H; simpl; [reflexivity |].
  rewrite (H x (or_introl eq_refl)). apply IH.
  intros y Hy. apply H. now right.
Qed.

Lemma is_nostalgic_false (c : Candidate) :
  nostalgia_score c < MIN_NOSTALGIA_SCORE -> is_nostalgic c = false.
Proof.
  intros H. unfold is_nostalgic.
  destruct (Rle_dec MIN_NOSTALGIA_SCORE (nostalgia_score c)); [lra | reflexivity].
Qed.

(** X4: the filter never turns a non-empty recency-filtered list into an
    empty one, whatever the scores. *)
Theorem filter_candidates_nonempty (recent : list FeedbackEvent)
    (candidates : list Candidate) :
  exclude_recent recent candidates <> [] ->
  filter_candidates recent candidates <> [].
Proof.
  intros Hne. unfold filter_candidates.
  destruct (filter is_nostalgic (exclude_recent recent candidates)) eqn:Hf;
    simpl; [exact Hne | discriminate].
Qed.

(** C5: when the list that survives the recency exclusion is not empty
    and all its candidates score below 0.3, the filter returns that list,
    and so a non-empty list. *)
Theorem filter_candidates_fallback (recent_feedback : list FeedbackEvent)
    (candidates : list Candidate) :
  exclude_recent recent_feedback candidates <> [] ->
  (forall c, In c (exclude_recent recent_feedback candidates) ->
             nostalgia_score c < 3 / 10) ->
  filter_candidates recent_feedback candidates =
    exclude_recent recent_feedback candidates /\
  filter_candidates recent_feedback candidates <> [].
Proof.
  intros Hne Hlow.
  assert (filter_candidates recent_feedback candidates =
          exclude_recent recent_feedback candidates) as Heq.
  { unfold filter_candidates.
    rewrite (filter_none is_nostalgic); [reflexivity |].
    intros c Hc. apply is_nostalgic_false. unfold MIN_NOSTALGIA_SCORE.
    now apply Hlow. }
  split; [exact Heq | now rewrite Heq].
Qed.

Lemma sample_exclude_recent :
  exclude_recent sample_recent sample_candidates = [ sample_song ].
Proof. reflexivity. Qed.

(** X4, at the sample input. *)
Lemma filter_candidates_nonempty_witness :
  exclude_recent sample_recent sample_candidates <> [] /\
  filter_candidates sample_recent sample_candidates <> [].
Proof.
  assert (exclude_recent sample_recent sample_candidates <> []) as Hne
    by (rewrite sample_exclude_recent; discriminate).
  split; [exact Hne |].
  exact (filter_candidates_nonempty sample_recent sample_candidates Hne).
Defined.

(** C5, at the sample input: the movie was shown recently, the song that
    is left scores 0.1, and the filter returns the song. *)
Lemma filter_candidates_fallback_witness :
  exclude_recent sample_recent sample_candidates <> [] /\
  (forall c, In c (exclude_recent sample_recent sample_candidates) ->
             nostalgia_score c < 3 / 10) /\
  filter_candidates sample_recent sample_candidates <> [].
Proof.
  assert (forall c, In c (exclude_recent sample_recent sample_candidates) ->
                    nostalgia_score c < 3 / 10) as Hlow.
  { rewrite sample_exclude_recent. intros c [<- | []]. simpl. lra. }
  assert (exclude_recent sample_recent sample_candidates <> []) as Hne
    by (rewrite sample_exclude_recent; discriminate).
  split; [exact Hne | split; [exact Hlow |]].
  exact (proj2 (filter_candidates_fallback sample_recent sample_candidates Hne Hlow)).
Defined.

End CandidateFilterSpec.

Module BanditSpec.
Import mathcomp.boot.boot mathcomp.order.order mathcomp.algebra.algebra.
Import GRing.Theory Num.Theory Order.Theory.
Import GenreNormalizer CandidateFilter Bandit.
Local Open Scope ring_scope.

Set Implicit Arguments.
Unset Strict Implicit.
Unset Printing Implicit Defensive.

Section LinearAlgebra.
Variable F : realFieldType.
Variable d : nat.
Implicit Types (u v w x : 'cV[F]_d) (A : 'M[F]_d).

Lemma dotvE u v : dotv u v = \sum_i u i 0 * v i 0.
Proof. by rewrite /dotv mxE; apply: eq_bigr => i _; rewrite mxE. Qed.

Lemma dotvC u v : dotv u v = dotv v u.
Proof. by rewrite !dotvE; apply: eq_bigr => i _; rewrite mulrC. Qed.

Lemma dotvDr u v w : dotv u (v + w) = dotv u v + dotv u w.
Proof. by rewrite /dotv mulmxDr mxE. Qed.

Lemma dotvZr u a v : dotv u (a *: v) = a * dotv u v.
Proof. by rewrite /dotv -scalemxAr mxE. Qed.


Lemma dotvBr u v w : dotv u (v - w) = dotv u v - dotv u w.
Proof. by rewrite /dotv mulmxBr !mxE. Qed.

Lemma dotv0r u : dotv u 0 = 0.
Proof. by rewrite /dotv mulmx0 mxE. Qed.

Lemma dotv0l u : dotv 0 u = 0.
Proof. by rewrite dotvC dotv0r. Qed.

Lemma dotv_scalar u v : u^T *m v = (dotv u v)%:M.
Proof. by rewrite /dotv -mx11_scalar. Qed.

Lemma dotv_ge0 v : 0 <= dotv v v.
Proof. by rewrite dotvE; apply: sumr_ge0 => i _; rewrite -expr2 sqr_ge0. Qed.

Lemma dotv_eq0 v : dotv v v = 0 -> v = 0.
Proof.
  rewrite dotvE => /eqP.
  rewrite psumr_eq0; first by move=> i _; rewrite -expr2 sqr_ge0.
  move=> /allP H; apply/matrixP => i j; rewrite ord1 [in RHS]mxE.
  have := H i; rewrite mem_index_enum => /(_ isT) /=.
  by rewrite mulf_eq0 orbb => /eqP.
Qed.

Lemma dotv_gt0 v : v != 0 -> 0 < dotv v v.
Proof.
  move=> vN0; rewrite lt_neqAle dotv_ge0 andbT eq_sym.
  by apply: contraNneq vN0 => /dotv_eq0 ->.
Qed.

(** The outer product applied to a vector. *)
Lemma outer_mul x v : (x *m x^T) *m v = dotv x v *: x.
Proof. by rewrite -mulmxA dotv_scalar mul_mx_scalar. Qed.

Lemma symmetric_1 : symmetric (1%:M : 'M[F]_d).
Proof. by rewrite /symmetric trmx1. Qed.

Lemma positive_definite_1 : positive_definite (1%:M : 'M[F]_d).
Proof. by move=> v vN0; rewrite mul1mx dotv_gt0. Qed.

Lemma symmetric_outer A x : symmetric A -> symmetric (A + x *m x^T).
Proof.
  by rewrite /symmetric => AT; rewrite linearD /= AT trmx_mul trmxK.
Qed.

Lemma positive_definite_outer A x :
  positive_definite A -> positive_definite (A + x *m x^T).
Proof.
  move=> Apd v vN0; rewrite mulmxDl dotvDr outer_mul dotvZr.
  rewrite (dotvC v x) -expr2.
  by apply: ltr_wpDr; [rewrite sqr_ge0 | apply: Apd].
Qed.

(** A positive-definite matrix has an inverse. *)
Lemma positive_definite_unit A : positive_definite A -> A \in unitmx.
Proof.
  move=> Apd; rewrite -row_free_unit -kermx_eq0.
  apply/rowV0P => u /sub_kermxP uA0.
  apply: trmx_inj; rewrite trmx0.
  apply: contraTeq isT => uN0.
  have := Apd _ uN0.
  by rewrite /dotv trmxK mulmxA uA0 mul0mx mxE ltxx.
Qed.

(** *** One arm *)

Lemma arm_init_inv : arm_inv (arm_init F d).
Proof.
  split; [exact: symmetric_1 | exact: positive_definite_1 |].
  by rewrite /= mulmx0.
Qed.

Lemma arm_observe_inv (a : ArmModel F d) x r :
  arm_inv a -> arm_inv (arm_observe a x r).
Proof.
  case=> Asym Apd _; split => //=.
  - exact: symmetric_outer.
  - exact: positive_definite_outer.
Qed.

(** With [A] symmetric positive-definite, [s = xT A^-1 x] is not
    negative, and is zero only for the zero vector. *)
Lemma bonus_ge0 A x :
  symmetric A -> positive_definite A -> 0 <= dotv x (invmx A *m x).
Proof.
  move=> Asym Apd; have Au := positive_definite_unit Apd.
  set y := invmx A *m x.
  have -> : x = A *m y by rewrite /y mulKVmx.
  rewrite dotvC.
  have [-> | yN0] := eqVneq y 0; first by rewrite dotv0l.
  by rewrite ltW // Apd.
Qed.

Lemma bonus_gt0 A x :
  symmetric A -> positive_definite A -> x != 0 -> 0 < dotv x (invmx A *m x).
Proof.
  move=> Asym Apd xN0; have Au := positive_definite_unit Apd.
  set y := invmx A *m x.
  have xE : x = A *m y by rewrite /y mulKVmx.
  rewrite [X in dotv X _]xE dotvC; apply: Apd.
  by apply: contraNneq xN0 => y0; rewrite xE y0 mulmx0.
Qed.

(** The prediction at [x] after learning [(x, 1)]:
    [p' = (p + s) / (1 + s)] with [s = xT A^-1 x]. *)
Lemma predict_after_positive (a : ArmModel F d) x :
  arm_inv a ->
  let s := dotv x (invmx (arm_A a) *m x) in
  predict (arm_observe a x 1) x = (predict a x + s) / (1 + s).
Proof.
  case=> Asym Apd thetaE s.
  have Au := positive_definite_unit Apd.
  have A'u := positive_definite_unit (positive_definite_outer x Apd).
  have s_ge0 : 0 <= s := bonus_ge0 x Asym Apd.
  have s1N0 : 1 + s != 0 by rewrite gt_eqF // ltr_pwDl.
  set p := predict a x.
  have pE : dotv x (invmx (arm_A a) *m arm_b a) = p.
    by rewrite /p /predict thetaE dotvC.
  set c := (p + s) / (1 + s).
  pose z := invmx (arm_A a) *m (arm_b a + x) - c *: (invmx (arm_A a) *m x).
  have xz : dotv x z = c.
    rewrite /z dotvBr mulmxDr dotvDr dotvZr pE -/s /c.
    by field.
  have A'z : (arm_A a + x *m x^T) *m z = arm_b a + 1 *: x.
    rewrite mulmxDl outer_mul xz scale1r.
    rewrite /z mulmxBr mulKVmx // -scalemxAr mulKVmx //.
    by rewrite subrK.
  by rewrite /predict /= -A'z mulKmx // dotvC xz.
Qed.

(** What positive feedback does to the prediction, in the three cases
    of the prediction before it. *)
Lemma predict_after_positive_cases (a : ArmModel F d) x :
  arm_inv a ->
  let p := predict a x in
  let p' := predict (arm_observe a x 1) x in
  [/\ x != 0 -> p < 1 -> p < p',
      x != 0 -> 1 < p -> p' < p
    & x = 0 \/ p = 1 -> p' = p].
Proof.
  move=> inv_a p p'; have [Asym Apd _] := inv_a.
  have p'E : p' = (p + dotv x (invmx (arm_A a) *m x)) /
                  (1 + dotv x (invmx (arm_A a) *m x)).
    exact: predict_after_positive.
  have s_ge0 := bonus_ge0 x Asym Apd.
  move: p'E s_ge0; set s := dotv x _ => p'E s_ge0.
  have s1_gt0 : 0 < 1 + s by lra.
  split.
  - move=> xN0 p_lt1; have s_gt0 : 0 < s := bonus_gt0 Asym Apd xN0.
    by rewrite p'E ltr_pdivlMr //; nra.
  - move=> xN0 p_gt1; have s_gt0 : 0 < s := bonus_gt0 Asym Apd xN0.
    by rewrite p'E ltr_pdivrMr //; nra.
  - case=> [x0 | p1].
    + have s0 : s = 0 by rewrite /s x0 dotv0l.
      by rewrite p'E s0 !addr0 divr1.
    + by rewrite p'E p1 divff // gt_eqF.
Qed.

(** *** One bandit *)

Lemma mab_partial_fit_same (arms : ArmTable F d) arm r x :
  mab_partial_fit arms arm r x arm = arm_observe (arms arm) x r.
Proof. by rewrite /mab_partial_fit String.eqb_refl. Qed.

Lemma mab_partial_fit_inv (arms : ArmTable F d) arm r x :
  (forall a, arm_inv (arms a)) ->
  forall a, arm_inv (mab_partial_fit arms arm r x a).
Proof.
  move=> inv a; rewrite /mab_partial_fit.
  by case: (String.eqb a arm); [apply: arm_observe_inv |].
Qed.

Lemma linucb_update_inv (m : LinUCBBandit F d) context c reward :
  (forall a, arm_inv (mab m a)) ->
  forall a, arm_inv (mab (linucb_update m context c reward) a).
Proof.
  move=> inv a; rewrite /linucb_update /=.
  case: (is_fitted m) => /=; first exact: mab_partial_fit_inv.
  by apply: mab_partial_fit_inv => a'; apply: arm_init_inv.
Qed.

Lemma bandit_after_inv alpha0 (updates : seq (seq F * Candidate * F)) :
  forall a, arm_inv (mab (bandit_after d alpha0 updates) a).
Proof.
  rewrite /bandit_after.
  elim/last_ind: updates => [|us u IH] a /=; first exact: arm_init_inv.
  by rewrite -cats1 foldl_cat /=; apply: linucb_update_inv.
Qed.

Lemma binary_reward_binary (r : F) : is_binary r -> binary_reward r = r.
Proof.
  rewrite /is_binary /binary_reward => /orP [] /eqP ->.
  - by rewrite ltNge invr_ge0 ler0n.
  - by rewrite invf_lt1 ?ltr0n // ltr1n.
Qed.

(** The arm an update is for, in a fitted bandit. *)
Lemma linucb_update_arm (m : LinUCBBandit F d) context c reward :
  is_fitted m ->
  mab (linucb_update m context c reward) (get_arm c) =
  arm_observe (mab m (get_arm c)) (ensure_shape d context) (binary_reward reward).
Proof. by move=> fit; rewrite /linucb_update /= fit /= mab_partial_fit_same. Qed.

Lemma linucb_update_arm_fresh (m : LinUCBBandit F d) context c reward :
  (~~ is_fitted m -> mab m (get_arm c) = arm_init F d) ->
  mab (linucb_update m context c reward) (get_arm c) =
  arm_observe (mab m (get_arm c)) (ensure_shape d context) (binary_reward reward).
Proof.
  move=> fresh; rewrite /linucb_update /=.
  case fit: (is_fitted m) fresh => /= fresh; first by rewrite mab_partial_fit_same.
  by rewrite /mab_fit mab_partial_fit_same fresh.
Qed.

(** C9: in every state reached from a new bandit by updates, the matrix
    [A] of every arm is symmetric positive-definite, hence invertible,
    and [theta] solves [A theta = b]. *)
Theorem reachable_arm_positive_definite (alpha0 : F)
    (updates : seq (seq F * Candidate * F)) (arm : string) :
  let a := mab (bandit_after d alpha0 updates) arm in
  [/\ symmetric (arm_A a), positive_definite (arm_A a), arm_A a \in unitmx,
      invmx (arm_A a) *m arm_A a = 1%:M & arm_A a *m arm_theta a = arm_b a].
Proof.
  move=> a; have [Asym Apd thetaE] := bandit_after_inv alpha0 updates arm.
  have Au := positive_definite_unit Apd.
  by split=> //; [rewrite mulVmx | rewrite thetaE mulKVmx].
Qed.



Variable sqrtF : F -> F.

(** C6: for a user whose model has fewer than ten updates, or has no
    model yet, the hierarchical selection is the selection of the global
    model, on the same random draws. *)
Theorem hierarchical_select_cold_start (hb : HierarchicalBandit F d)
    (user_id : string) (context : seq F) (candidates : seq Candidate) (g : rng) :
  (n_updates (get_or_create_user_model hb user_id).1 < MIN_USER_UPDATES)%N ->
  (hierarchical_select sqrtF hb user_id context candidates g).1.1 =
    (linucb_select sqrtF (global_model hb) context candidates g).1 /\
  (hierarchical_select sqrtF hb user_id context candidates g).2 =
    (linucb_select sqrtF (global_model hb) context candidates g).2.
Proof.
  move=> cold; rewrite /hierarchical_select.
  case: (linucb_select sqrtF (global_model hb) context candidates g)
    => [[[global_idx global_score] |] g1] //=.
  by case: (get_or_create_user_model hb user_id) cold => user_model hb1 /= ->.
Qed.

(** *** Context vectors *)

Lemma neutral_context_neq0 (rate : F) (birth_year : option int) :
  ensure_shape CONTEXT_DIM
    (build_context_features 2%:R^-1 "neutral" rate birth_year) != 0.
Proof.
  apply/eqP => /matrixP /(_ ord0 ord0); rewrite !mxE /= => /eqP.
  by rewrite invr_eq0 pnatr_eq0.
Qed.

(** *** The state machine of one bandit *)

Lemma bandit_after_rcons alpha0 (updates : seq (seq F * Candidate * F)) upd :
  bandit_after d alpha0 (rcons updates upd) =
  linucb_update (bandit_after d alpha0 updates) upd.1.1 upd.1.2 upd.2.
Proof. by rewrite /bandit_after -cats1 foldl_cat. Qed.

(** X7: a bandit is fitted exactly when it has learnt an update, and
    counts its updates; it never becomes unfitted again. *)
Theorem bandit_after_fitted alpha0 (updates : seq (seq F * Candidate * F)) :
  is_fitted (bandit_after d alpha0 updates) = (0 < size updates)%N /\
  n_updates (bandit_after d alpha0 updates) = size updates.
Proof.
  elim/last_ind: updates => [|us upd [_ IHn]] //.
  by rewrite bandit_after_rcons size_rcons /= IHn.
Qed.

(** *** Selection *)

(** X8: a fitted bandit selects a candidate in range whose score is the
    greatest, and draws no random number. *)
Theorem linucb_select_maximal (m : LinUCBBandit F d) (context : seq F)
    (candidates : seq Candidate) (g g' : rng) (idx : nat) (score : F) :
  is_fitted m ->
  linucb_select sqrtF m context candidates g = (Some (idx, score), g') ->
  let x := ensure_shape d context in
  [/\ (idx < size candidates)%N,
      score = candidate_score sqrtF m x (nth no_candidate candidates idx),
      g' = g
    & forall j, (j < size candidates)%N ->
        candidate_score sqrtF m x (nth no_candidate candidates j) <= score].
Proof.
  move=> fit; rewrite /linucb_select fit /=.
  set f := fun i => (i, candidate_score sqrtF m _ (nth no_candidate candidates i)).
  set leT := fun p q : nat * F => q.2 <= p.2.
  have leT_total : total leT by move=> p q; rewrite /leT le_total.
  have leT_trans : transitive leT by move=> q p r pq qr; apply: le_trans qr pq.
  case E : (sort leT _) => [|best rest] //= [bestE <-].
  have sorted_s : sorted leT (best :: rest) by rewrite -E sort_sorted.
  have all_le : all (leT best) rest by apply: order_path_min.
  have mem_best : best \in [seq f i | i <- iota 0 (size candidates)].
    by rewrite -(mem_sort leT) E mem_head.
  have /mapP [i i_in best_f] := mem_best.
  move: bestE; rewrite best_f /f => -[<- <-].
  split=> //; first by move: i_in; rewrite mem_iota add0n.
  move=> j j_lt.
  have : f j \in best :: rest.
    by rewrite -E mem_sort; apply: map_f; rewrite mem_iota add0n.
  rewrite in_cons => /orP [/eqP fj | /(allP all_le)].
  - by move: fj; rewrite best_f /f => -[_ ->].
  - by rewrite /leT best_f.
Qed.

(** *** The hierarchical update *)

Lemma find_store_user_model (models : seq (string * LinUCBBandit F d))
    (user_id : string) (m : LinUCBBandit F d) :
  find_user_model (store_user_model models user_id m) user_id = Some m.
Proof.
  elim: models => [|[u m0] rest IH] /=; first by rewrite String.eqb_refl.
  case E : (String.eqb u user_id) => /=; by rewrite E.
Qed.

Lemma get_or_create_global (hb : HierarchicalBandit F d) (user_id : string) :
  global_model (get_or_create_user_model hb user_id).2 = global_model hb.
Proof.
  by rewrite /get_or_create_user_model; case: (find_user_model _ _).
Qed.

Lemma hierarchical_update_global (hb : HierarchicalBandit F d)
    (user_id : string) (context : seq F) (c : Candidate) (reward : F) :
  global_model (hierarchical_update hb user_id context c reward) =
  linucb_update (global_model hb) context c reward.
Proof.
  rewrite /hierarchical_update.
  have := get_or_create_global hb user_id.
  by case: (get_or_create_user_model hb user_id) => user_model hb1 /= ->.
Qed.


End LinearAlgebra.

Section Feedback.
Variable F : realFieldType.

(** X10: in PROCESS_FEEDBACK a positive answer raises the global model's
    prediction for the neutral context of the request, as long as that
    prediction is below 1: the neutral context is never the zero
    vector. *)
Theorem process_feedback_raises_prediction
    (hb : HierarchicalBandit F CONTEXT_DIM) (user_id : string)
    (rate : F) (birth_year : option int) (content_id content_type : string)
    (content_year : Z) (content_genre : string) :
  is_fitted (global_model hb) ->
  let c := feedback_candidate content_type content_id content_year content_genre in
  let x := ensure_shape CONTEXT_DIM
             (build_context_features 2%:R^-1 "neutral" rate birth_year) in
  let hb' := (process_feedback hb user_id rate birth_year content_id content_type
                content_year content_genre true).1 in
  arm_inv (mab (global_model hb) (get_arm c)) ->
  predict (mab (global_model hb) (get_arm c)) x < 1 ->
  predict (mab (global_model hb) (get_arm c)) x <
  predict (mab (global_model hb') (get_arm c)) x.
Proof.
  move=> fit c x hb' inv p_lt1.
  have -> : global_model hb' =
            linucb_update (global_model hb)
              (build_context_features 2%:R^-1 "neutral" rate birth_year) c 1.
    by rewrite /hb' /process_feedback /= hierarchical_update_global.
  have bin1 : is_binary (1 : F) by rewrite /is_binary eqxx orbT.
  rewrite linucb_update_arm // (binary_reward_binary bin1).
  have [up _ _] := predict_after_positive_cases x inv.
  by apply: up => //; apply: neutral_context_neq0.
Qed.

End Feedback.

(** *** Worked example: the same context observed twice *)

Section SameContextTwice.
Variable F : realFieldType.
Variable d : nat.
Variable x : 'cV[F]_d.

Let q : F := dotv x x.
Let a2 : ArmModel F d := arm_observe (arm_observe (arm_init F d) x 1) x 1.




End SameContextTwice.

Section Contexts.
Variable F : realFieldType.
Variable d : nat.



End Contexts.









(** X8, at the sample bandit with one candidate. *)
Lemma linucb_select_maximal_witness :
  let x := ensure_shape CONTEXT_DIM sample_context_1940 in
  let s := candidate_score no_sqrt sample_bandit x sample_movie in
  [/\ is_fitted sample_bandit,
      linucb_select no_sqrt sample_bandit sample_context_1940 [:: sample_movie] [::] =
        (Some (0%N, s), [::])
    & forall j, (j < 1)%N ->
        candidate_score no_sqrt sample_bandit x (nth no_candidate [:: sample_movie] j)
          <= s].
Proof.
  move=> x s.
  have fit : is_fitted sample_bandit by [].
  have sel : linucb_select no_sqrt sample_bandit sample_context_1940 [:: sample_movie] [::] =
             (Some (0%N, s), [::]) by [].
  have [_ _ _ best] := linucb_select_maximal fit sel.
  by split.
Defined.

(** X10, at the sample bandit: positive feedback on a rock song, whose
    arm is still fresh. *)
Lemma process_feedback_raises_prediction_witness :
  let c := feedback_candidate "song" "s1" (year sample_song) "rock" in
  let x := ensure_shape CONTEXT_DIM
             (build_context_features 2%:R^-1 "neutral" (0 : rat) None) in
  let hb' := (process_feedback sample_hierarchical "u1" 0 None "s1" "song"
                (year sample_song) "rock" true).1 in
  [/\ is_fitted (global_model sample_hierarchical),
      arm_inv (mab (global_model sample_hierarchical) (get_arm c)),
      predict (mab (global_model sample_hierarchical) (get_arm c)) x < 1
    & predict (mab (global_model sample_hierarchical) (get_arm c)) x <
      predict (mab (global_model hb') (get_arm c)) x].
Proof.
  move=> c x hb'.
  have fit : is_fitted (global_model sample_hierarchical) by [].
  have inv : arm_inv (mab (global_model sample_hierarchical) (get_arm c)).
    exact: bandit_after_inv.
  have p_lt1 : predict (mab (global_model sample_hierarchical) (get_arm c)) x < 1.
    have -> : mab (global_model sample_hierarchical) (get_arm c) =
              arm_init rat CONTEXT_DIM by [].
    by rewrite /predict /= dotv0l.
  have up := process_feedback_raises_prediction "u1"
               (rate := 0) (birth_year := None) (content_id := "s1")
               (content_type := "song") (content_year := (year sample_song))
               (content_genre := "rock") fit inv p_lt1.
  by split.
Defined.

(** C6, at a sample input: a user without a model, one candidate. *)
Lemma hierarchical_select_cold_start_witness :
  (n_updates (get_or_create_user_model sample_hierarchical "u1").1
     < MIN_USER_UPDATES)%N /\
  (hierarchical_select no_sqrt sample_hierarchical "u1" sample_context_1940
     [:: sample_movie] [:: 0%N]).1.1 =
  (linucb_select no_sqrt (global_model sample_hierarchical) sample_context_1940
     [:: sample_movie] [:: 0%N]).1.
Proof.
  have cold : (n_updates (get_or_create_user_model sample_hierarchical "u1").1
                 < MIN_USER_UPDATES)%N by [].
  have [same _] :=
    hierarchical_select_cold_start no_sqrt sample_context_1940 [:: sample_movie]
      [:: 0%N] cold.
  by split.
Defined.

End BanditSpec.

Module ScoreFilterSpec.
Import NostalgiaScorer NostalgiaScorerSpec.
Local Open Scope R_scope.

(** *** Popularity *)

Lemma popularity_score_mono (rc1 rc2 mc : R) (lin : bool) :
  rc1 <= rc2 -> popularity_score rc1 mc lin <= popularity_score rc2 mc lin.
Proof.
  intros Hle.
  destruct (Rle_dec rc1 0) as [H1 | H1].
  - replace (popularity_score rc1 mc lin) with 0.
    + apply popularity_score_nonneg.
    + unfold popularity_score. destruct (Rle_dec rc1 0); [reflexivity | contradiction].
  - unfold popularity_score.
    destruct (Rle_dec rc1 0); [contradiction |].
    destruct (Rle_dec rc2 0); [lra |].
    destruct (Rle_dec mc 0); [lra |].
    destruct lin.
    + assert (rc1 / mc <= rc2 / mc).
      { unfold Rdiv. apply Rmult_le_compat_r; [| lra].
        apply Rlt_le, Rinv_0_lt_compat. lra. }
      apply Rmin_glb; [apply Rmin_l |].
      eapply Rle_trans; [apply Rmin_r | assumption].
    + assert (0 < ln (1 + mc)) by (apply ln_1_plus_pos; lra).
      unfold Rdiv. apply Rmult_le_compat_r.
      * apply Rlt_le, Rinv_0_lt_compat. assumption.
      * destruct (Req_dec rc1 rc2) as [-> | Hne]; [lra |].
        apply Rlt_le, ln_increasing; lra.
Qed.

Lemma final_score_mono_popularity (b r : Z) (rc1 rc2 mc : R) (lin : bool) :
  rc1 <= rc2 -> final_score b r rc1 mc lin <= final_score b r rc2 mc lin.
Proof.
  intros Hle. rewrite !final_score_unfold.
  pose proof (popularity_score_mono rc1 rc2 mc lin Hle) as Hp.
  pose proof (age_nostalgia_pos (r - b)) as Ha.
  destruct (r - b <? 0)%Z; nra.
Qed.

(** X12: with the years and the scaling fixed, a higher rating count or
    popularity never lowers the nostalgia score. *)
Theorem nostalgia_score_monotone_in_popularity (birth_year release_year : Z)
    (rating_count1 rating_count2 max_count : R) (use_linear : bool) :
  rating_count1 <= rating_count2 ->
  nostalgia_score birth_year release_year rating_count1 max_count use_linear <=
  nostalgia_score birth_year release_year rating_count2 max_count use_linear.
Proof.
  intros Hle. apply nostalgia_score_mono_final.
  now apply final_score_mono_popularity.
Qed.

(** *** Bounds on the exponential *)

Lemma exp_double (x : R) : exp (2 * x) = exp x ^ 2.
Proof. replace (2 * x) with (x + x) by lra. rewrite exp_plus. ring. Qed.

Lemma exp_neg_ge_pow8 (t : R) : 0 <= t <= 8 -> (1 - t / 8) ^ 8 <= exp (- t).
Proof.
  intros Ht.
  replace (- t) with (2 * (2 * (2 * (- t / 8)))) by lra.
  rewrite !exp_double.
  replace ((((exp (- t / 8)) ^ 2) ^ 2) ^ 2) with (exp (- t / 8) ^ 8) by ring.
  apply pow_incr. split; [lra |].
  pose proof (exp_ineq1_le (- t / 8)). lra.
Qed.

Lemma exp_neg_le_pow8 (t : R) : 0 <= t -> exp (- t) <= (/ (1 + t / 8)) ^ 8.
Proof.
  intros Ht.
  replace (- t) with (2 * (2 * (2 * (- (t / 8))))) by lra.
  rewrite !exp_double.
  replace (((exp (- (t / 8)) ^ 2) ^ 2) ^ 2) with (exp (- (t / 8)) ^ 8) by ring.
  apply pow_incr. split; [apply Rlt_le, exp_pos |].
  apply exp_neg_le_inv. lra.
Qed.

(** *** The score against the threshold of the filter *)

Lemma nostalgia_score_ge (b r : Z) (rc mc : R) (lin : bool) (k : Z) :
  IZR k / 1000 <= 1 ->
  IZR k / 1000 <= final_score b r rc mc lin ->
  IZR k / 1000 <= nostalgia_score b r rc mc lin.
Proof.
  intros Hk Hf. unfold nostalgia_score. apply round_ndigits_3_lower.
  unfold clamp01. apply Rmin_glb; [assumption |].
  eapply Rle_trans; [exact Hf | apply Rmax_r].
Qed.

Lemma nostalgia_score_le (b r : Z) (rc mc : R) (lin : bool) (k : Z) :
  0 <= IZR k / 1000 ->
  final_score b r rc mc lin <= IZR k / 1000 ->
  nostalgia_score b r rc mc lin <= IZR k / 1000.
Proof.
  intros Hk Hf. unfold nostalgia_score. apply round_ndigits_3_upper.
  unfold clamp01. eapply Rle_trans; [apply Rmin_r |].
  apply Rmax_lub; assumption.
Qed.

Lemma nostalgia_score_formative (b r : Z) (rc mc : R) (lin : bool) :
  (3 <= r - b <= 23)%Z -> 3 / 10 <= nostalgia_score b r rc mc lin.
Proof.
  intros [Hlo Hhi].
  replace (3 / 10) with (IZR 300 / 1000) by lra.
  apply nostalgia_score_ge; [lra |].
  rewrite final_score_postbirth by lia.
  rewrite age_nostalgia_postbirth by lia.
  pose proof (popularity_score_nonneg rc mc lin) as Hp.
  apply IZR_le in Hlo. apply IZR_le in Hhi.
  set (a := IZR (r - b)) in *.
  assert ((a - 13) ^ 2 / 128 <= 100 / 128) as Ht by nra.
  assert (exp (- (100 / 128)) <= exp (- ((a - 13) ^ 2 / 128))) as He
    by (apply exp_le_mono; lra).
  pose proof (exp_neg_ge_pow8 (100 / 128)) as Hb.
  assert (3 / 7 <= (1 - 100 / 128 / 8) ^ 8) as Hn by (simpl; lra).
  assert (3 / 7 <= exp (- ((a - 13) ^ 2 / 128))) as Hage by lra.
  nra.
Qed.

Lemma popularity_score_none (rc mc : R) (lin : bool) :
  rc <= 0 -> popularity_score rc mc lin = 0.
Proof.
  intros H. unfold popularity_score. destruct (Rle_dec rc 0); [reflexivity | contradiction].
Qed.

(** Post-birth content released at an age [a] with [(a - 13)^2 >= 121]
    and without popularity stays below the threshold. *)
Lemma nostalgia_score_unrated_far (b r : Z) (rc mc : R) (lin : bool) :
  (0 <= r - b)%Z -> (r - b <= 2 \/ 24 <= r - b)%Z -> rc <= 0 ->
  nostalgia_score b r rc mc lin <= 299 / 1000.
Proof.
  intros Hpost Hfar Hrc.
  change (299 / 1000) with (IZR 299 / 1000).
  apply nostalgia_score_le; [lra |].
  rewrite final_score_postbirth by lia.
  rewrite age_nostalgia_postbirth by lia.
  rewrite popularity_score_none by assumption.
  set (a := IZR (r - b)) in *.
  assert (121 / 128 <= (a - 13) ^ 2 / 128) as Ht.
  { destruct Hfar as [H | H]; apply IZR_le in H; fold a in H; nra. }
  assert (exp (- ((a - 13) ^ 2 / 128)) <= exp (- (121 / 128))) as He
    by (apply exp_le_mono; lra).
  pose proof (exp_neg_le_pow8 (121 / 128)) as Hb.
  assert ((/ (1 + 121 / 128 / 8)) ^ 8 <= 42 / 100) as Hn.
  { replace (/ (1 + 121 / 128 / 8)) with (1024 / 1145) by (field; lra). simpl. lra. }
  assert (exp (- ((a - 13) ^ 2 / 128)) <= 42 / 100) as Hage by lra.
  lra.
Qed.

Lemma nostalgia_score_late (b r : Z) (rc mc : R) (lin : bool) :
  (26 <= r - b)%Z -> popularity_score rc mc lin <= 1 ->
  nostalgia_score b r rc mc lin <= 299 / 1000.
Proof.
  intros Hlo Hp1.
  change (299 / 1000) with (IZR 299 / 1000).
  apply nostalgia_score_le; [lra |].
  rewrite final_score_postbirth by lia.
  rewrite age_nostalgia_postbirth by lia.
  pose proof (popularity_score_nonneg rc mc lin) as Hp.
  apply IZR_le in Hlo.
  set (a := IZR (r - b)) in *.
  assert (169 / 128 <= (a - 13) ^ 2 / 128) as Ht by nra.
  assert (exp (- ((a - 13) ^ 2 / 128)) <= exp (- (169 / 128))) as He
    by (apply exp_le_mono; lra).
  pose proof (exp_neg_le_pow8 (169 / 128)) as Hb.
  assert ((/ (1 + 169 / 128 / 8)) ^ 8 <= 299 / 1000) as Hn.
  { replace (/ (1 + 169 / 128 / 8)) with (1024 / 1193) by (field; lra). simpl. lra. }
  pose proof (exp_pos (- ((a - 13) ^ 2 / 128))) as Hpos.
  assert (exp (- ((a - 13) ^ 2 / 128)) <= 299 / 1000) as Hage by lra.
  nra.
Qed.

Lemma nostalgia_score_prebirth_unrated (b r : Z) (rc mc : R) (lin : bool) :
  (r - b < 0)%Z -> rc <= 0 ->
  nostalgia_score b r rc mc lin <= 299 / 1000.
Proof.
  intros Hlt Hrc.
  change (299 / 1000) with (IZR 299 / 1000).
  apply nostalgia_score_le; [lra |].
  rewrite final_score_prebirth by lia.
  rewrite age_nostalgia_prebirth by lia.
  rewrite popularity_score_none by assumption.
  apply IZR_lt in Hlt.
  set (a := IZR (r - b)) in *.
  assert (exp (- (3 / 100 * - a)) <= 1) as He by (apply exp_neg_le_1; lra).
  pose proof (exp_pos (- (3 / 100 * - a))) as Hpos.
  pose proof (exp_pos (- (169 / 128))) as Hpos'.
  pose proof (exp_neg_le_pow8 (169 / 128)) as Hb.
  assert ((/ (1 + 169 / 128 / 8)) ^ 8 <= 4 / 10) as Hn.
  { replace (/ (1 + 169 / 128 / 8)) with (1024 / 1193) by (field; lra). simpl. lra. }
  assert (exp (- (169 / 128)) <= 4 / 10) as Hage by lra.
  nra.
Qed.

(** X13: content released when the user was between 3 and 23 years old
    reaches the threshold of the nostalgia filter whatever its
    popularity. *)
Theorem formative_years_pass_filter (birth_year release_year : Z)
    (rating_count max_count : R) (use_linear : bool) :
  (3 <= release_year - birth_year <= 23)%Z ->
  CandidateFilter.MIN_NOSTALGIA_SCORE <=
  nostalgia_score birth_year release_year rating_count max_count use_linear.
Proof.
  intros H. unfold CandidateFilter.MIN_NOSTALGIA_SCORE.
  now apply nostalgia_score_formative.
Qed.

(** X14: content without any rating or popularity stays below the
    threshold when it was released outside that window, before the
    user's birth included. *)
Theorem unrated_content_outside_window_fails (birth_year release_year : Z)
    (rating_count max_count : R) (use_linear : bool) :
  rating_count <= 0 ->
  (release_year - birth_year < 3 \/ 23 < release_year - birth_year)%Z ->
  nostalgia_score birth_year release_year rating_count max_count use_linear <
  CandidateFilter.MIN_NOSTALGIA_SCORE.
Proof.
  intros Hrc Hout. unfold CandidateFilter.MIN_NOSTALGIA_SCORE.
  apply Rle_lt_trans with (299 / 1000); [| lra].
  destruct (Z.lt_ge_cases (release_year - birth_year) 0) as [Hpre | Hpost].
  - now apply nostalgia_score_prebirth_unrated.
  - apply nostalgia_score_unrated_far; [assumption | lia | assumption].
Qed.

(** X15: content released when the user was 26 or older stays below the
    threshold however popular it is, as long as the popularity does not
    exceed its maximum. *)
Theorem late_content_fails_filter (birth_year release_year : Z)
    (rating_count max_count : R) (use_linear : bool) :
  (26 <= release_year - birth_year)%Z ->
  use_linear = true \/ rating_count <= max_count ->
  nostalgia_score birth_year release_year rating_count max_count use_linear <
  CandidateFilter.MIN_NOSTALGIA_SCORE.
Proof.
  intros Hlate Hpop. unfold CandidateFilter.MIN_NOSTALGIA_SCORE.
  apply Rle_lt_trans with (299 / 1000); [| lra].
  apply nostalgia_score_late; [assumption |].
  destruct use_linear.
  - apply popularity_score_linear_le_1.
  - destruct Hpop as [Hlin | Hle]; [discriminate |].
    now apply popularity_score_log_le_1.
Qed.

(** The candidate of a song of the user's formative years is nostalgic. *)
Lemma is_nostalgic_song_formative (birth_year : Z) (song : CandidateGenerator.SongRow) :
  (3 <= CandidateGenerator.song_year song - birth_year <= 23)%Z ->
  CandidateFilter.is_nostalgic (CandidateGenerator.song_candidate birth_year song) = true.
Proof.
  intros H. unfold CandidateFilter.is_nostalgic.
  destruct (Rle_dec _ _) as [_ | Hn]; [reflexivity |].
  exfalso. apply Hn. simpl. unfold song_nostalgia_score.
  unfold CandidateFilter.MIN_NOSTALGIA_SCORE.
  now apply nostalgia_score_formative.
Qed.

(** X12, at a movie of 2000 for a user born in 1990. *)
Lemma nostalgia_score_monotone_in_popularity_witness :
  500 <= 20000 /\
  movie_nostalgia_score 1990 2000 500 <= movie_nostalgia_score 1990 2000 20000.
Proof.
  assert (500 <= 20000) as H by lra.
  split; [exact H |].
  exact (nostalgia_score_monotone_in_popularity 1990 2000 500 20000
           MAX_MOVIE_RATINGS false H).
Defined.

(** X13, at an unrated movie released when the user was ten. *)
Lemma formative_years_pass_filter_witness :
  (3 <= 2000 - 1990 <= 23)%Z /\
  CandidateFilter.MIN_NOSTALGIA_SCORE <= movie_nostalgia_score 1990 2000 0.
Proof.
  assert (3 <= 2000 - 1990 <= 23)%Z as H by lia.
  split; [exact H |].
  exact (formative_years_pass_filter 1990 2000 0 MAX_MOVIE_RATINGS false H).
Defined.

(** X14, at a song of popularity 0 released when the user was 24. *)
Lemma unrated_content_outside_window_fails_witness :
  0 <= 0 /\ (2014 - 1990 < 3 \/ 23 < 2014 - 1990)%Z /\
  song_nostalgia_score 1990 2014 0 < CandidateFilter.MIN_NOSTALGIA_SCORE.
Proof.
  assert (0 <= 0) as Hrc by lra.
  assert (2014 - 1990 < 3 \/ 23 < 2014 - 1990)%Z as Hout by lia.
  split; [exact Hrc | split; [exact Hout |]].
  exact (unrated_content_outside_window_fails 1990 2014 0 MAX_SONG_POPULARITY true
           Hrc Hout).
Defined.

(** X15, at a song of the highest popularity released when the user
    was 26. *)
Lemma late_content_fails_filter_witness :
  (26 <= 2016 - 1990)%Z /\
  song_nostalgia_score 1990 2016 100 < CandidateFilter.MIN_NOSTALGIA_SCORE.
Proof.
  assert (26 <= 2016 - 1990)%Z as Hlate by lia.
  split; [exact Hlate |].
  exact (late_content_fails_filter 1990 2016 100 MAX_SONG_POPULARITY true
           Hlate (or_introl eq_refl)).
Defined.

End ScoreFilterSpec.

Module GenreInputSpec.
Import GenreNormalizer ListNotations.
Local Open Scope string_scope.

Lemma split_first_append (g rest : string) :
  split_first (g ++ String "|" rest) = split_first g.
Proof.
  induction g as [| c g IH]; simpl; [reflexivity |].
  destruct (Ascii.eqb c "|"); [reflexivity | now rewrite IH].
Qed.

(** X16: of a genre list only the text before the first separator
    counts: what follows a "|" never changes the arm. *)
Theorem normalize_genre_first_genre (g rest content_type : string) :
  normalize_genre (g ++ "|" ++ rest) content_type = normalize_genre g content_type.
Proof.
  change (g ++ "|" ++ rest) with (g ++ String "|" rest).
  unfold normalize_genre. rewrite split_first_append.
  destruct g as [| c g]; [| reflexivity].
  simpl. destruct (String.eqb content_type "movie"); reflexivity.
Qed.

Lemma lower_char_bar (c : ascii) :
  Ascii.eqb (lower_char c) "|" = Ascii.eqb c "|".
Proof. destruct c as [[] [] [] [] [] [] [] []]; reflexivity. Qed.

Lemma lower_char_idem (c : ascii) : lower_char (lower_char c) = lower_char c.
Proof. destruct c as [[] [] [] [] [] [] [] []]; reflexivity. Qed.

Lemma to_lower_idem (s : string) : to_lower (to_lower s) = to_lower s.
Proof.
  induction s as [| c s IH]; simpl; [reflexivity |].
  now rewrite lower_char_idem, IH.
Qed.

Lemma split_first_to_lower (s : string) :
  split_first (to_lower s) = to_lower (split_first s).
Proof.
  induction s as [| c s IH]; simpl; [reflexivity |].
  rewrite lower_char_bar. destruct (Ascii.eqb c "|"); simpl; [reflexivity |].
  now rewrite IH.
Qed.

(** X17: the arm does not depend on the case of the letters of the raw
    genre. *)
Theorem normalize_genre_case_insensitive (raw content_type : string) :
  normalize_genre (to_lower raw) content_type = normalize_genre raw content_type.
Proof.
  unfold normalize_genre.
  rewrite split_first_to_lower, to_lower_idem.
  destruct raw; reflexivity.
Qed.

End GenreInputSpec.

Module PreferencesSpec.
Import Preferences.
Local Open Scope Z_scope.

(** X18: for a user who stored no period and whose birth year the
    onboarding accepted, the preferences endpoint reports the period from
    age 5 to age 19, cut at last year; the update endpoint accepts that
    period exactly when the user is at least six years old this year. *)
Theorem reported_period_accepted_iff (b currentYear : Z) :
  bodySchema_birthYear b = true ->
  let prefs := mkPreferences (Some b) None None in
  reported_period_start prefs = Some (b + 5) /\
  reported_period_end prefs currentYear = Some (Z.min (b + 19) (currentYear - 1)) /\
  (updatePreferencesSchema (reported_period_start prefs)
                   (reported_period_end prefs currentYear) = true <->
   b + 6 <= currentYear).
Proof.
  unfold bodySchema_birthYear. intros Hb.
  apply andb_prop in Hb. destruct Hb as [Hlo Hhi].
  apply Z.leb_le in Hlo. apply Z.leb_le in Hhi.
  assert ((b =? 0) = false) as Hb0 by (apply Z.eqb_neq; lia).
  cbv zeta. unfold reported_period_start, reported_period_end, truthy. simpl.
  rewrite Hb0. simpl.
  split; [reflexivity | split; [reflexivity |]].
  unfold updatePreferencesSchema, year_in_range, period_ordered, truthy.
  assert ((b + 5 =? 0) = false) as H5 by (apply Z.eqb_neq; lia).
  rewrite H5. simpl.
  split.
  - intros H. apply andb_prop in H. destruct H as [H Hord].
    destruct (Z.min (b + 19) (currentYear - 1) =? 0) eqn:E; simpl in Hord.
    + apply Z.eqb_eq in E. apply andb_prop in H. destruct H as [_ H].
      apply andb_prop in H. destruct H as [H _]. apply Z.leb_le in H. lia.
    + apply Z.leb_le in Hord. lia.
  - intros H.
    assert ((Z.min (b + 19) (currentYear - 1) =? 0) = false) as E
      by (apply Z.eqb_neq; lia).
    rewrite E. simpl.
    repeat (apply andb_true_intro; split); apply Z.leb_le; lia.
Qed.

(** X18, at a user born in 2020 in the year 2025: the reported period
    runs from 2025 to 2024 and is not accepted. *)
Lemma reported_period_accepted_iff_witness :
  bodySchema_birthYear 2020 = true /\
  updatePreferencesSchema (reported_period_start (mkPreferences (Some 2020) None None))
                  (reported_period_end (mkPreferences (Some 2020) None None) 2025)
    = false.
Proof.
  assert (bodySchema_birthYear 2020 = true) as Hb by reflexivity.
  split; [exact Hb |].
  destruct (reported_period_accepted_iff 2020 2025 Hb) as [_ [_ Hiff]].
  destruct (updatePreferencesSchema _ _); [| reflexivity].
  exfalso. pose proof (proj1 Hiff eq_refl). lia.
Defined.

End PreferencesSpec.

Module LearningSpec.
Import mathcomp.boot.boot mathcomp.order.order mathcomp.algebra.algebra.
Import GRing.Theory Num.Theory Order.Theory.
Import GenreNormalizer CandidateFilter CandidateGenerator Bandit Recommendation BanditSpec.
Local Open Scope ring_scope.

Set Implicit Arguments.
Unset Strict Implicit.
Unset Printing Implicit Defensive.

Section OneObservation.
Variable F : realFieldType.
Variable d : nat.
Implicit Types (u v w x y : 'cV[F]_d) (A : 'M[F]_d).

(** The inverse of a symmetric matrix is symmetric. *)
Lemma dotv_inv_sym A x y :
  symmetric A -> dotv y (invmx A *m x) = dotv x (invmx A *m y).
Proof.
  move=> Asym; rewrite /dotv.
  have -> : (y^T *m (invmx A *m x)) 0 0 = (y^T *m (invmx A *m x))^T 0 0.
    by rewrite [RHS]mxE.
  by rewrite !trmx_mul trmxK trmx_inv Asym mulmxA.
Qed.

(** The Sherman-Morrison step: [(A + x xT)^-1 y] in terms of [A^-1]. *)
Lemma observe_inverse A x y :
  symmetric A -> positive_definite A ->
  invmx (A + x *m x^T) *m y =
  invmx A *m y -
  (dotv x (invmx A *m y) / (1 + dotv x (invmx A *m x))) *: (invmx A *m x).
Proof.
  move=> Asym Apd.
  have Au := positive_definite_unit Apd.
  have A'u := positive_definite_unit (positive_definite_outer x Apd).
  have s_ge0 := bonus_ge0 x Asym Apd.
  set s := dotv x (invmx A *m x) in s_ge0 *.
  set c := dotv x (invmx A *m y).
  have s1N0 : 1 + s != 0 by rewrite gt_eqF // ltr_pwDl.
  set z := _ - _.
  have xz : dotv x z = c / (1 + s).
    by rewrite /z dotvBr dotvZr -/s -/c; field.
  have A'z : (A + x *m x^T) *m z = y.
    rewrite mulmxDl outer_mul xz.
    rewrite /z mulmxBr mulKVmx // -scalemxAr mulKVmx //.
    by rewrite subrK.
  by rewrite -A'z mulKmx.
Qed.

(** After an observation of [x] the quadratic form of the inverse, which
    the exploration bonus is the square root of, is smaller at every
    context [y]. *)
Lemma bonus_after_observe (a : ArmModel F d) x r y :
  arm_inv a ->
  dotv y (invmx (arm_A (arm_observe a x r)) *m y) =
  dotv y (invmx (arm_A a) *m y) -
  dotv x (invmx (arm_A a) *m y) ^+ 2 / (1 + dotv x (invmx (arm_A a) *m x)).
Proof.
  case=> Asym Apd _ /=.
  rewrite observe_inverse // dotvBr dotvZr (dotv_inv_sym x y Asym).
  by rewrite expr2 mulrAC.
Qed.

(** The prediction at [x] after learning [(x, r)]:
    [p' = (p + r s) / (1 + s)] with [s = xT A^-1 x]. *)
Lemma predict_after_observe (a : ArmModel F d) x r :
  arm_inv a ->
  let s := dotv x (invmx (arm_A a) *m x) in
  predict (arm_observe a x r) x = (predict a x + r * s) / (1 + s).
Proof.
  case=> Asym Apd thetaE s.
  have s_ge0 : 0 <= s := bonus_ge0 x Asym Apd.
  have s1N0 : 1 + s != 0 by rewrite gt_eqF // ltr_pwDl.
  have pE : dotv x (invmx (arm_A a) *m arm_b a) = predict a x.
    by rewrite /predict thetaE dotvC.
  rewrite /predict /= observe_inverse // dotvC dotvBr dotvZr -/s.
  rewrite mulmxDr -scalemxAr !dotvDr !dotvZr pE -/s -/(predict a x).
  by move: (predict a x) s s1N0 {s_ge0 pE} => p t tN0; field.
Qed.


(** *** Reachable bandits *)

Lemma bandit_after_unfitted alpha0 (updates : seq (seq F * Candidate * F)) :
  ~~ is_fitted (bandit_after d alpha0 updates) -> updates = [::].
Proof. by case/lastP: updates => // us upd; rewrite bandit_after_rcons. Qed.

Lemma reachable_update_arm alpha0 (updates : seq (seq F * Candidate * F))
    (context : seq F) (c : Candidate) (reward : F) :
  mab (linucb_update (bandit_after d alpha0 updates) context c reward) (get_arm c) =
  arm_observe (mab (bandit_after d alpha0 updates) (get_arm c))
    (ensure_shape d context) (binary_reward reward).
Proof. by apply: linucb_update_arm_fresh => /bandit_after_unfitted ->. Qed.

(** X19: in every state reached from a new bandit by updates, one more
    update never raises the uncertainty [yT A^-1 y] of the updated arm,
    at any context [y], and the uncertainty stays non-negative: the
    exploration bonus, its square root, can only shrink. *)
Theorem observation_shrinks_uncertainty (alpha0 : F)
    (updates : seq (seq F * Candidate * F)) (context : seq F) (c : Candidate)
    (reward : F) (y : 'cV[F]_d)
    (m := bandit_after d alpha0 updates)
    (m' := linucb_update m context c reward) :
  0 <= dotv y (invmx (arm_A (mab m' (get_arm c))) *m y)
    <= dotv y (invmx (arm_A (mab m (get_arm c))) *m y).
Proof.
  apply/andP; split.
  - have [Asym Apd _] := bandit_after_inv d alpha0 (rcons updates (context, c, reward))
                           (get_arm c).
    by move: (bonus_ge0 y Asym Apd); rewrite bandit_after_rcons.
  - have inv := bandit_after_inv d alpha0 updates (get_arm c).
    have [Asym Apd _] := inv.
    rewrite /m' /m reachable_update_arm bonus_after_observe //.
    rewrite lerBlDr lerDl divr_ge0 ?sqr_ge0 //.
    by rewrite addr_ge0 // bonus_ge0.
Qed.

(** X20: in every such state, negative feedback on a context divides
    the prediction of the arm for that context by [1 + s], with
    [s = xT A^-1 x >= 0]: the prediction moves towards zero and never
    past it. *)
Theorem negative_feedback_shrinks_prediction (alpha0 : F)
    (updates : seq (seq F * Candidate * F)) (context : seq F) (c : Candidate) :
  let m := bandit_after d alpha0 updates in
  let x := ensure_shape d context in
  let s := dotv x (invmx (arm_A (mab m (get_arm c))) *m x) in
  let p := predict (mab m (get_arm c)) x in
  let p' := predict (mab (linucb_update m context c 0) (get_arm c)) x in
  [/\ 0 <= s, p' = p / (1 + s) & `|p'| <= `|p|].
Proof.
  move=> m x s p p'.
  have inv := bandit_after_inv d alpha0 updates (get_arm c).
  have [Asym Apd _] := inv.
  have s_ge0 : 0 <= s := bonus_ge0 x Asym Apd.
  have bin0 : is_binary (0 : F) by rewrite /is_binary eqxx.
  have p'E : p' = p / (1 + s).
    rewrite /p' /m reachable_update_arm binary_reward_binary //.
    by rewrite predict_after_observe // mul0r addr0.
  split=> //.
  rewrite p'E normrM normfV [`|1 + s|]ger0_norm ?addr_ge0 //.
  by rewrite ler_pdivrMr ?ltr_pwDl // ler_peMr // lerDl.
Qed.

End OneObservation.

Section Users.
Variable F : realFieldType.
Variable d : nat.

Lemma find_store_other (models : seq (string * LinUCBBandit F d))
    (user_id other : string) (m : LinUCBBandit F d) :
  String.eqb other user_id = false ->
  find_user_model (store_user_model models user_id m) other =
  find_user_model models other.
Proof.
  move=> ne; elim: models => [|[u m0] rest IH] /=.
    by rewrite String.eqb_sym ne.
  case E : (String.eqb u user_id) => /=; last by rewrite IH.
  move/String.eqb_eq: E => ->.
  by rewrite String.eqb_sym ne.
Qed.

Lemma get_or_create_other (hb : HierarchicalBandit F d) (user_id other : string) :
  String.eqb other user_id = false ->
  find_user_model (user_models (get_or_create_user_model hb user_id).2) other =
  find_user_model (user_models hb) other.
Proof.
  move=> ne; rewrite /get_or_create_user_model.
  by case: (find_user_model _ user_id) => //=; rewrite find_store_other.
Qed.

Lemma hierarchical_update_other (hb : HierarchicalBandit F d)
    (user_id other : string) (context : seq F) (c : Candidate) (reward : F) :
  String.eqb other user_id = false ->
  find_user_model (user_models (hierarchical_update hb user_id context c reward)) other =
  find_user_model (user_models hb) other.
Proof.
  move=> ne; rewrite /hierarchical_update.
  have := get_or_create_other hb ne.
  case: (get_or_create_user_model hb user_id) => user_model hb1 /= <-.
  by rewrite find_store_other.
Qed.

Lemma hierarchical_update_user (hb : HierarchicalBandit F d)
    (user_id : string) (context : seq F) (c : Candidate) (reward : F) :
  find_user_model (user_models (hierarchical_update hb user_id context c reward)) user_id =
  Some (linucb_update (get_or_create_user_model hb user_id).1 context c reward).
Proof.
  rewrite /hierarchical_update.
  case: (get_or_create_user_model hb user_id) => user_model hb1 /=.
  by rewrite find_store_user_model.
Qed.

End Users.

Section Log.
Variable F : realFieldType.
Variable sqrtF : F -> F.

Lemma hierarchical_after_rcons (alpha0 : F) (log : seq (FeedbackRequest F)) r :
  hierarchical_after alpha0 (rcons log r) =
  serve_feedback (hierarchical_after alpha0 log) r.
Proof. by rewrite /hierarchical_after -cats1 foldl_cat. Qed.

(** X21: the feedback of one user leaves the model of every other user
    as it was. *)
Theorem process_feedback_other_user (hb : HierarchicalBandit F CONTEXT_DIM)
    (user_id other : string) (rate : F) (birth_year : option int)
    (content_id content_type : string) (content_year : Z)
    (content_genre : string) (brings_back_memories : bool) :
  String.eqb other user_id = false ->
  find_user_model
    (user_models (process_feedback hb user_id rate birth_year content_id
                    content_type content_year content_genre
                    brings_back_memories).1) other =
  find_user_model (user_models hb) other.
Proof. by move=> ne; rewrite /process_feedback /= hierarchical_update_other. Qed.

Lemma get_or_create_n_updates (hb : HierarchicalBandit F CONTEXT_DIM) (user_id : string) :
  n_updates (get_or_create_user_model hb user_id).1 =
  oapp (@n_updates F CONTEXT_DIM) 0%N (find_user_model (user_models hb) user_id).
Proof. by rewrite /get_or_create_user_model; case: (find_user_model _ _). Qed.

Lemma hierarchical_after_user (alpha0 : F) (log : seq (FeedbackRequest F))
    (user_id : string) :
  omap (@n_updates F CONTEXT_DIM)
    (find_user_model (user_models (hierarchical_after alpha0 log)) user_id) =
  if feedback_count user_id log is n.+1 then Some n.+1 else None.
Proof.
  elim/last_ind: log => [|log r IH] //.
  rewrite hierarchical_after_rcons /feedback_count -cats1 count_cat /= addn0.
  rewrite /serve_feedback /process_feedback /=.
  case E : (String.eqb (fr_user_id r) user_id).
  - move/String.eqb_eq: E => E; rewrite E hierarchical_update_user /=.
    rewrite get_or_create_n_updates addn1.
    move: IH; rewrite /feedback_count.
    case: (find_user_model _ _) => [m |] /=; first by case: (count _ _) => // n [->].
    by case: (count _ _).
  - by rewrite addn0 hierarchical_update_other // String.eqb_sym.
Qed.

(** X22: after any log of feedback requests served from a new
    deployment, the global model has counted every request and the model
    of a user, a new one if the user has none, has counted the requests
    of that user. *)
Theorem hierarchical_after_counts (alpha0 : F) (log : seq (FeedbackRequest F))
    (user_id : string) :
  let hb := hierarchical_after alpha0 log in
  n_updates (global_model hb) = size log /\
  n_updates (get_or_create_user_model hb user_id).1 = feedback_count user_id log.
Proof.
  split.
  - elim/last_ind: log => [|log r IH] //.
    rewrite hierarchical_after_rcons size_rcons -IH.
    by rewrite /serve_feedback /process_feedback /= hierarchical_update_global.
  - rewrite get_or_create_n_updates.
    have := hierarchical_after_user alpha0 log user_id.
    case: (find_user_model _ _) => [m |] /=; first by case: (feedback_count _ _) => // n [->].
    by case: (feedback_count _ _).
Qed.

(** X23: a user with fewer than ten feedback requests in the log is
    served the selection of the global model. *)
Theorem first_feedbacks_use_global (alpha0 : F) (log : seq (FeedbackRequest F))
    (user_id : string) (context : seq F) (candidates : seq Candidate) (g : rng) :
  (feedback_count user_id log < MIN_USER_UPDATES)%N ->
  (hierarchical_select sqrtF (hierarchical_after alpha0 log) user_id context
     candidates g).1.1 =
  (linucb_select sqrtF (global_model (hierarchical_after alpha0 log)) context
     candidates g).1.
Proof.
  move=> few; rewrite /hierarchical_select.
  case: (linucb_select sqrtF _ context candidates g)
    => [[[global_idx global_score] |] g1] //=.
  have := get_or_create_n_updates (hierarchical_after alpha0 log) user_id.
  have := hierarchical_after_user alpha0 log user_id.
  case: (get_or_create_user_model _ user_id) => user_model hb1 /=.
  case: (find_user_model _ _) => [m |] /=.
  - case E : (feedback_count _ _) few => [|n] //= few [mE] ->.
    by rewrite mE few.
  - by move=> _ ->.
Qed.

End Log.

Section Scores.
Variable F : realFieldType.
Variable sqrtF : F -> F.
Variable d : nat.

Lemma get_arm_known (c : Candidate) :
  List.existsb (String.eqb (get_arm c)) ARMS = true.
Proof.
  rewrite /get_arm; case E : (String.eqb (content_type c) "movie").
  - move/String.eqb_eq: E => ->.
    have /= := GenreNormalizerSpec.normalize_genre_movie (genres c).
    by do 6![case=> [<- // |]].
  - have /= := GenreNormalizerSpec.normalize_genre_song (genre c) (content_type c) E.
    by do 6![case=> [<- // |]].
Qed.

(** X24: the arm of a candidate is always one of the twelve arms, so
    the default score 0.5 of LINUCB_SELECT for an unknown arm is never
    used: the score of a candidate is the score of its arm. *)
Theorem candidate_score_never_default (m : LinUCBBandit F d) (x : 'cV[F]_d)
    (c : Candidate) :
  candidate_score sqrtF m x c = ucb_score sqrtF (alpha m) (mab m (get_arm c)) x.
Proof. by rewrite /candidate_score get_arm_known. Qed.

End Scores.

Section ContextFeatures.
Variable F : realFieldType.

Local Arguments String.eqb : simpl never.

(** X6: the context vector has [CONTEXT_DIM] entries; its entries 1 to 7
    are zeros and ones, with exactly one 1 when the emotion is one of the
    seven emotions and none otherwise. *)
Theorem build_context_features_one_hot (stress : F) (emotion : string) (rate : F)
    (birth_year : option int) :
  let context := build_context_features stress emotion rate birth_year in
  let block := take 7 (behead context) in
  [/\ size context = CONTEXT_DIM,
      all (fun v => (v == 0) || (v == 1)) block
    & \sum_(v <- block) v =
      if List.existsb (fun e => String.eqb e emotion) EMOTIONS then 1 else 0].
Proof.
  move=> context block.
  have blockE : block = [seq (if String.eqb e emotion then 1 else 0) | e <- EMOTIONS].
    by [].
  split=> //.
  - rewrite blockE /=.
    by do 7![case: ifP => _; rewrite ?eqxx ?orbT /=].
  - rewrite blockE /= !big_cons big_nil.
    case E1 : (String.eqb "anger" emotion).
      by move/String.eqb_eq: E1 => E1; rewrite -?E1 /String.eqb /= !addr0 ?add0r.
    case E2 : (String.eqb "fear" emotion).
      by move/String.eqb_eq: E2 => E2; rewrite -?E2 /String.eqb /= !addr0 ?add0r.
    case E3 : (String.eqb "joy" emotion).
      by move/String.eqb_eq: E3 => E3; rewrite -?E3 /String.eqb /= !addr0 ?add0r.
    case E4 : (String.eqb "love" emotion).
      by move/String.eqb_eq: E4 => E4; rewrite -?E4 /String.eqb /= !addr0 ?add0r.
    case E5 : (String.eqb "neutral" emotion).
      by move/String.eqb_eq: E5 => E5; rewrite -?E5 /String.eqb /= !addr0 ?add0r.
    case E6 : (String.eqb "sadness" emotion).
      by move/String.eqb_eq: E6 => E6; rewrite -?E6 /String.eqb /= !addr0 ?add0r.
    case E7 : (String.eqb "surprise" emotion).
      by move/String.eqb_eq: E7 => E7; rewrite -?E7 /String.eqb /= !addr0 ?add0r.
    by rewrite /= !addr0.
Qed.

End ContextFeatures.

(** X21, at the sample bandit: feedback of user u1, model of user u2. *)
Lemma process_feedback_other_user_witness :
  String.eqb "u2" "u1" = false /\
  find_user_model
    (user_models (process_feedback sample_hierarchical "u1" 0 None "s1" "song"
                    (year sample_song) "rock" true).1) "u2" =
  find_user_model (user_models sample_hierarchical) "u2".
Proof.
  have ne : String.eqb "u2" "u1" = false by [].
  have same := process_feedback_other_user sample_hierarchical 0 None "s1" "song"
                 (year sample_song) "rock" true ne.
  by split.
Defined.

(** X23, at the sample log: user u1 has given two answers. *)
Lemma first_feedbacks_use_global_witness :
  (feedback_count "u1" sample_log < MIN_USER_UPDATES)%N /\
  (hierarchical_select no_sqrt (hierarchical_after 1 sample_log) "u1"
     sample_context_1970 [:: sample_movie; sample_song] [:: 0%N]).1.1 =
  (linucb_select no_sqrt (global_model (hierarchical_after 1 sample_log))
     sample_context_1970 [:: sample_movie; sample_song] [:: 0%N]).1.
Proof.
  have few : (feedback_count "u1" sample_log < MIN_USER_UPDATES)%N by [].
  have global := first_feedbacks_use_global no_sqrt 1 sample_context_1970
                   [:: sample_movie; sample_song] [:: 0%N] few.
  by split.
Defined.

End LearningSpec.

Module RecommendationSpec.
Import mathcomp.boot.boot mathcomp.order.order mathcomp.algebra.algebra.
Import GRing.Theory Num.Theory Order.Theory.
Import GenreNormalizer CandidateFilter CandidateGenerator Bandit Recommendation.
Import BanditSpec LearningSpec.
Local Open Scope ring_scope.

Set Implicit Arguments.
Unset Strict Implicit.
Unset Printing Implicit Defensive.

Section Lists.
Variable T : Type.
Implicit Types (s : seq T) (p : pred T) (x : T).

Lemma size_length s : size s = List.length s.
Proof. by elim: s => //= x s ->. Qed.

Lemma filter_List p s : List.filter p s = [seq x <- s | p x].
Proof. by elim: s => //= x s ->. Qed.

Lemma In_nth x0 s i : (i < size s)%N -> List.In (nth x0 s i) s.
Proof.
  elim: s i => [|x s IH] [|i] //=; first by left.
  by rewrite ltnS => /IH; right.
Qed.

Lemma cat_app s1 s2 : s1 ++ s2 = List.app s1 s2.
Proof. by elim: s1 => //= x s1 ->. Qed.

Lemma In_filter p s x : List.In x [seq y <- s | p y] -> List.In x s /\ p x.
Proof. by rewrite -filter_List => /List.filter_In. Qed.

(** The entries of a sorted list are entries of the list. *)
Lemma nth_sort (leT : rel T) x0 s i :
  (i < size s)%N ->
  exists2 j, (j < size s)%N & nth x0 (sort leT s) i = nth x0 s j.
Proof.
  move=> i_lt.
  pose f := nth x0 s.
  have sE : s = [seq f j | j <- iota 0 (size s)].
    by rewrite -[LHS](mkseq_nth x0).
  pose idx := sort (relpre f leT) (iota 0 (size s)).
  have sortE : sort leT s = [seq f j | j <- idx].
    by rewrite [in LHS]sE sort_map.
  have size_idx : size idx = size s by rewrite size_sort size_iota.
  exists (nth 0%N idx i).
  - have : nth 0%N idx i \in idx by rewrite mem_nth // size_idx.
    by rewrite mem_sort mem_iota add0n.
  - by rewrite sortE (nth_map 0%N) // size_idx.
Qed.

End Lists.

Lemma by_similarity_total : total by_similarity.
Proof.
  move=> c1 c2; rewrite /by_similarity.
  case: (Rle_dec _ _) => // H1; case: (Rle_dec _ _) => // H2.
  by exfalso; Lra.lra.
Qed.

Lemma by_similarity_trans : transitive by_similarity.
Proof.
  move=> c2 c1 c3; rewrite /by_similarity.
  case: (Rle_dec _ _) => // H1 _; case: (Rle_dec _ _) => // H2 _.
  by case: (Rle_dec _ _) => // H3; exfalso; Lra.lra.
Qed.

Lemma by_similarity_refl : reflexive by_similarity.
Proof. by move=> c; rewrite /by_similarity; case: (Rle_dec _ _) => // H; exfalso; Lra.lra. Qed.

Lemma more_similarN (c1 c2 : Candidate) : more_similar c1 c2 = ~~ by_similarity c2 c1.
Proof.
  rewrite /more_similar /by_similarity.
  by case: (Rlt_dec _ _) => H1; case: (Rle_dec _ _) => H2 //; exfalso; Lra.lra.
Qed.

Section Pipeline.
Variable F : realFieldType.
Variable sqrtF : F -> F.
Variable d : nat.

(** *** The selection of the bandit stays in range *)

Lemma linucb_select_range (m : LinUCBBandit F d) (context : seq F)
    (candidates : seq Candidate) (g : rng) :
  match (linucb_select sqrtF m context candidates g).1 with
  | Some (idx, _) => is_true (idx < size candidates)%N
  | None => candidates = [::]
  end.
Proof.
  rewrite /linucb_select; case: (is_fitted m) => /=.
  - set scores := [seq _ | i <- iota 0 (size candidates)].
    set leT := fun p q : nat * F => q.2 <= p.2.
    case E : (sort leT scores) => [|[idx score] rest] /=.
    + have : size (sort leT scores) = 0%N by rewrite E.
      by rewrite size_sort size_map size_iota => /size0nil.
    + have : (idx, score) \in scores by rewrite -(mem_sort leT) E mem_head.
      by case/mapP => i; rewrite mem_iota add0n => i_lt [-> _].
  - rewrite /random_index; case: candidates => [|c cs] //=.
    by rewrite ltn_pmod.
Qed.

Lemma hierarchical_select_range (hb : HierarchicalBandit F d) (user_id : string)
    (context : seq F) (candidates : seq Candidate) (g : rng) :
  match (hierarchical_select sqrtF hb user_id context candidates g).1.1 with
  | Some (idx, _) => is_true (idx < size candidates)%N
  | None => candidates = [::]
  end.
Proof.
  rewrite /hierarchical_select.
  have := linucb_select_range (global_model hb) context candidates g.
  case: (linucb_select sqrtF (global_model hb) context candidates g)
    => [[[global_idx global_score] |] g1] //= global_lt.
  case: (get_or_create_user_model hb user_id) => user_model hb1.
  case: ifP => _ //=.
  have := linucb_select_range user_model context candidates g1.
  case: (linucb_select sqrtF user_model context candidates g1)
    => [[[user_idx user_score] |] g2] //= user_lt.
  by case: ifP.
Qed.

(** X25: the hierarchical selection fails exactly on an empty candidate
    list, and the index it returns is an index of the list. *)
Theorem hierarchical_select_in_range (hb : HierarchicalBandit F d) (user_id : string)
    (context : seq F) (candidates : seq Candidate) (g : rng) :
  let selection := (hierarchical_select sqrtF hb user_id context candidates g).1.1 in
  isSome selection = ~~ nilp candidates /\
  forall idx score, selection = Some (idx, score) -> (idx < size candidates)%N.
Proof.
  move=> selection.
  have := hierarchical_select_range hb user_id context candidates g.
  rewrite -/selection; case: selection => [[idx score] | ->] //= idx_lt.
  split; first by case: candidates idx_lt.
  by move=> _ _ [<- _].
Qed.

(** The bandit after a selection: the one before, or that one with a new
    model for the user. *)
Lemma hierarchical_select_bandit (hb : HierarchicalBandit F d) (user_id : string)
    (context : seq F) (candidates : seq Candidate) (g : rng) :
  let hb' := (hierarchical_select sqrtF hb user_id context candidates g).1.2 in
  hb' = hb \/ hb' = (get_or_create_user_model hb user_id).2.
Proof.
  rewrite /hierarchical_select.
  case: (linucb_select sqrtF (global_model hb) context candidates g)
    => [[[global_idx global_score] |] g1] /=; last by left.
  case: (get_or_create_user_model hb user_id) => user_model hb1 /=.
  case: ifP => _ /=; first by right.
  case: (linucb_select sqrtF user_model context candidates g1)
    => [[[user_idx user_score] |] g2] /=; last by right.
  by case: ifP => _; right.
Qed.

Lemma get_or_create_find (hb : HierarchicalBandit F d) (user_id u : string) :
  let hb' := (get_or_create_user_model hb user_id).2 in
  find_user_model (user_models hb') u = find_user_model (user_models hb) u \/
  (find_user_model (user_models hb) u = None /\
   find_user_model (user_models hb') u = Some (linucb_new d (alpha (global_model hb)))).
Proof.
  rewrite /get_or_create_user_model.
  case E : (find_user_model (user_models hb) user_id) => [m |] /=; first by left.
  case ne : (String.eqb u user_id).
  - move/String.eqb_eq: ne => ->; right.
    by rewrite find_store_user_model.
  - by left; rewrite find_store_other.
Qed.

(** *** Within-arm selection *)

Lemma random_choice_nth (s : seq Candidate) (g : rng) :
  match random_choice s g with
  | Some (c, _) => exists2 i, (i < size s)%N & c = nth no_candidate s i
  | None => s = [::]
  end.
Proof.
  rewrite /random_choice /random_index; case: s => [|c s] //=.
  by exists (head 0 g %% (size s).+1)%N => //; rewrite ltn_pmod.
Qed.

Lemma arm_candidates_has (candidates : seq Candidate) (idx : nat) :
  (idx < size candidates)%N -> (0 < size (arm_candidates candidates idx))%N.
Proof.
  move=> idx_lt; rewrite /arm_candidates size_filter -has_count.
  apply/(has_nthP no_candidate); exists idx => //.
  by rewrite String.eqb_refl.
Qed.

(** What the within-arm selection returns: an entry of the sorted arm
    list, at one of the first five positions. *)
Lemma within_arm_select_nth (candidates : seq Candidate) (idx : nat) (g : rng) :
  (idx < size candidates)%N ->
  exists c g' i,
    [/\ within_arm_select candidates idx g = Some (c, g'),
        (i < 5)%N, (i < size (arm_candidates candidates idx))%N
      & c = nth no_candidate (sort by_similarity (arm_candidates candidates idx)) i].
Proof.
  move=> /arm_candidates_has; rewrite /within_arm_select.
  set ac := arm_candidates candidates idx => ac_gt0.
  have := random_choice_nth (take 5 (sort by_similarity ac)) g.
  case: (random_choice _ g) => [[c g'] [i i_lt ->] | /(congr1 size)].
  - exists (nth no_candidate (take 5 (sort by_similarity ac)) i), g', i.
    move: i_lt; rewrite size_take_min size_sort leq_min => /andP [i5 i_ac].
    by split=> //; rewrite nth_take.
  - by rewrite size_take_min size_sort /=; case: (size ac) ac_gt0 => // n _; rewrite minnSS.
Qed.


Lemma arm_candidates_nth (cs : seq Candidate) (idx i : nat) :
  (i < size (arm_candidates cs idx))%N ->
  let c := nth no_candidate (sort by_similarity (arm_candidates cs idx)) i in
  List.In c cs /\ get_arm c = get_arm (nth no_candidate cs idx).
Proof.
  move=> i_lt c.
  have [j j_lt cE] := nth_sort by_similarity no_candidate i_lt.
  have c_ac : List.In c (arm_candidates cs idx) by rewrite /c cE; apply: In_nth.
  have [c_cs /String.eqb_eq c_arm] := In_filter c_ac.
  by [].
Qed.

Lemma sorted_tail_not_more_similar (s : seq Candidate) (i : nat) :
  sorted by_similarity s -> (i < size s)%N ->
  (count (more_similar^~ (nth no_candidate s i)) s <= i)%N.
Proof.
  move=> sorted_s i_lt; set c := nth no_candidate s i.
  rewrite -[X in count _ X](cat_take_drop i) count_cat.
  have -> : count (more_similar^~ c) (drop i s) = 0%N.
    apply/eqP; rewrite -leqn0 leqNgt -has_count; apply/negP.
    case/(has_nthP no_candidate) => k; rewrite size_drop ltn_subRL => k_lt.
    rewrite nth_drop more_similarN => /negP; apply.
    apply: (sorted_leq_nth by_similarity_trans by_similarity_refl) => //.
    exact: leq_addr.
  by rewrite addn0 (leq_trans (count_size _ _)) // size_take i_lt.
Qed.

(** X26: for an index of the candidate list, the within-arm selection
    returns a candidate of the list that has the arm of the candidate at
    that index, and fewer than five candidates of that arm are strictly
    more similar than it. *)
Theorem within_arm_select_top_five (candidates : seq Candidate) (idx : nat) (g : rng) :
  (idx < size candidates)%N ->
  exists selected g',
    [/\ within_arm_select candidates idx g = Some (selected, g'),
        List.In selected candidates,
        get_arm selected = get_arm (nth no_candidate candidates idx)
      & (count (more_similar^~ selected) (arm_candidates candidates idx) < 5)%N].
Proof.
  move=> idx_lt.
  have [c [g' [i [sel i5 i_lt cE]]]] := within_arm_select_nth g idx_lt.
  exists c, g'.
  have [c_cs c_arm] := arm_candidates_nth i_lt.
  split=> //; try by rewrite cE.
  rewrite -(count_sort by_similarity) cE.
  apply: leq_ltn_trans i5; apply: sorted_tail_not_more_similar.
  - exact: (sort_sorted by_similarity_total).
  - by rewrite size_sort.
Qed.

(** *** The recommendation *)

Lemma filter_candidates_nilp (recent : seq FeedbackEvent) (cs : seq Candidate) :
  nilp (filter_candidates recent cs) = nilp (exclude_recent recent cs).
Proof.
  rewrite /filter_candidates.
  case E : (List.filter is_nostalgic (exclude_recent recent cs)) => [|c l] //=.
  have : List.In c (exclude_recent recent cs).
    have : List.In c (c :: l) by left.
    by rewrite -E => /List.filter_In [].
  by case: (exclude_recent recent cs).
Qed.

Lemma filter_candidates_In (recent : seq FeedbackEvent) (cs : seq Candidate) c :
  List.In c (filter_candidates recent cs) ->
  [/\ List.In c cs,
      List.existsb (String.eqb (content_id c)) (recent_ids recent) = false
    & List.existsb is_nostalgic (exclude_recent recent cs) -> is_nostalgic c].
Proof.
  rewrite /filter_candidates.
  set ex := exclude_recent recent cs.
  have exP x : List.In x ex ->
      List.In x cs /\
      List.existsb (String.eqb (content_id x)) (recent_ids recent) = false.
    by rewrite /ex /exclude_recent => /List.filter_In [? /negbTE].
  case E : (List.filter is_nostalgic ex) => [|c0 l] /=.
  - move=> /[dup] c_ex /exP [c_cs c_fresh]; split=> //.
    case/List.existsb_exists => x [x_ex x_nost].
    have : List.In x (List.filter is_nostalgic ex) by apply/List.filter_In.
    by rewrite E.
  - rewrite -/(List.In c (c0 :: l)) -E => /List.filter_In [/exP [c_cs c_fresh] c_nost].
    by split.
Qed.

Variable shuffle : seq Candidate -> rng -> seq Candidate * rng.
Hypothesis shuffle_perm : forall s g, Permutation (shuffle s g).1 s.

Lemma shuffle_nilp s g : nilp (shuffle s g).1 = nilp s.
Proof. by rewrite /nilp !size_length (Permutation_length (shuffle_perm s g)). Qed.

(** What GET_RECOMMENDATION returns, in terms of the shuffled list. *)
Lemma get_recommendation_cases (hb : HierarchicalBandit F d) (user_id : string)
    (birth_year : Z) (movie_df : seq MovieRow) (song_df : seq SongRow)
    (recent : seq FeedbackEvent) (context : seq F) (g : rng)
    (cs := (shuffle (filter_candidates recent
                       (generate_candidates birth_year movie_df song_df)) g).1) :
  match (get_recommendation sqrtF shuffle hb user_id birth_year movie_df song_df
           recent context g).1.1 with
  | Some (selected, _) =>
      exists idx i,
        [/\ (idx < size cs)%N, (i < 5)%N, (i < size (arm_candidates cs idx))%N
          & selected =
            nth no_candidate (sort by_similarity (arm_candidates cs idx)) i]
  | None => cs = [::]
  end.
Proof.
  rewrite /get_recommendation /cs.
  case: (shuffle _ g) => cs1 g0 /=.
  have := hierarchical_select_range hb user_id context cs1 g0.
  case: (hierarchical_select sqrtF hb user_id context cs1 g0)
    => [[[[idx score] |] hb1] g1] //= idx_lt.
  have [c [g' [i [-> i5 i_lt ->]]]] := within_arm_select_nth g1 idx_lt.
  by exists idx, i.
Qed.

(** X27: with a shuffle that permutes its input, GET_RECOMMENDATION
    returns a recommendation exactly when some generated candidate has
    not been shown recently. *)
Theorem get_recommendation_defined (hb : HierarchicalBandit F d) (user_id : string)
    (birth_year : Z) (movie_df : seq MovieRow) (song_df : seq SongRow)
    (recent : seq FeedbackEvent) (context : seq F) (g : rng) :
  isSome (get_recommendation sqrtF shuffle hb user_id birth_year movie_df song_df
            recent context g).1.1 =
  ~~ nilp (exclude_recent recent (generate_candidates birth_year movie_df song_df)).
Proof.
  rewrite -filter_candidates_nilp -(shuffle_nilp _ g).
  have := get_recommendation_cases hb user_id birth_year movie_df song_df recent context g.
  case: (X in X.1.1) => [[[[selected score] |] hb1] g1] /=; last by move->.
  by case=> idx [i [idx_lt _ _ _]]; case: (shuffle _ g).1 idx_lt.
Qed.

(** X28: the recommendation is one of the generated candidates and its
    id is not among the ids of the recent feedback. *)
Theorem get_recommendation_fresh (hb : HierarchicalBandit F d) (user_id : string)
    (birth_year : Z) (movie_df : seq MovieRow) (song_df : seq SongRow)
    (recent : seq FeedbackEvent) (context : seq F) (g : rng) :
  match (get_recommendation sqrtF shuffle hb user_id birth_year movie_df song_df
           recent context g).1.1 with
  | Some (selected, _) =>
      List.In selected (generate_candidates birth_year movie_df song_df) /\
      List.existsb (String.eqb (content_id selected)) (recent_ids recent) = false
  | None => True
  end.
Proof.
  have := get_recommendation_cases hb user_id birth_year movie_df song_df recent context g.
  case: (X in X.1.1) => [[[[selected score] |] hb1] g1] //=.
  case=> idx [i [idx_lt _ i_lt ->]].
  have [c_cs _] := arm_candidates_nth i_lt.
  have [] // := filter_candidates_In (Permutation_in _ (shuffle_perm _ g) c_cs).
Qed.

(** X29: when some candidate that has not been shown recently reaches
    the nostalgia threshold, a recommendation is returned and it reaches
    the threshold. *)
Theorem get_recommendation_nostalgic (hb : HierarchicalBandit F d) (user_id : string)
    (birth_year : Z) (movie_df : seq MovieRow) (song_df : seq SongRow)
    (recent : seq FeedbackEvent) (context : seq F) (g : rng) :
  List.existsb is_nostalgic
    (exclude_recent recent (generate_candidates birth_year movie_df song_df)) ->
  exists selected score,
    (get_recommendation sqrtF shuffle hb user_id birth_year movie_df song_df
       recent context g).1.1 = Some (selected, score) /\
    is_nostalgic selected.
Proof.
  move=> some_nost.
  have := get_recommendation_cases hb user_id birth_year movie_df song_df recent context g.
  case: (X in X.1.1) => [[[[selected score] |] hb1] g1] /=.
  - case=> idx [i [idx_lt _ i_lt selE]]; exists selected, score; split=> //.
    have [c_cs _] := arm_candidates_nth i_lt.
    have [_ _] := filter_candidates_In (Permutation_in _ (shuffle_perm _ g) c_cs).
    by rewrite selE; apply.
  - move=> /(congr1 (@nilp _)); rewrite shuffle_nilp filter_candidates_nilp /=.
    by case: (exclude_recent _ _) some_nost.
Qed.

(** X30: a recommendation never changes what the bandit has learnt: the
    global model is the one before, and the model of every user is the one
    before, or a new, unfitted one for a user who had none. *)
Theorem get_recommendation_learns_nothing (hb : HierarchicalBandit F d)
    (user_id : string) (birth_year : Z) (movie_df : seq MovieRow)
    (song_df : seq SongRow) (recent : seq FeedbackEvent) (context : seq F)
    (g : rng) (u : string) :
  let hb' := (get_recommendation sqrtF shuffle hb user_id birth_year movie_df
                song_df recent context g).1.2 in
  global_model hb' = global_model hb /\
  (find_user_model (user_models hb') u = find_user_model (user_models hb) u \/
   (find_user_model (user_models hb) u = None /\
    find_user_model (user_models hb') u =
      Some (linucb_new d (alpha (global_model hb))))).
Proof.
  rewrite /get_recommendation.
  case: (shuffle _ g) => cs g0 /=.
  have := hierarchical_select_bandit hb user_id context cs g0.
  case: (hierarchical_select sqrtF hb user_id context cs g0)
    => [[[[idx score] |] hb1] g1] /= hb1E.
  - have -> : (match within_arm_select cs idx g1 with
               | Some (selected, g2) => (Some (selected, score), hb1, g2)
               | None => (None, hb1, g1)
               end).1.2 = hb1 by case: (within_arm_select _ _ _) => [[? ?]|].
    case: hb1E => ->; first by split; [| left].
    by split; [exact: get_or_create_global | exact: get_or_create_find].
  - case: hb1E => ->; first by split; [| left].
    by split; [exact: get_or_create_global | exact: get_or_create_find].
Qed.

End Pipeline.

Lemma sample_shuffle_perm (s : seq Candidate) (g : rng) :
  Permutation (sample_shuffle s g).1 s.
Proof.
  rewrite /sample_shuffle /= /rot.
  rewrite -[X in Permutation _ X](cat_take_drop (head 0 g %% (size s).+1)%N).
  by rewrite !cat_app; apply: Permutation_app_comm.
Qed.

(** X26, at the two sample candidates and the index of the movie. *)
Lemma within_arm_select_top_five_witness :
  (0 < size [:: sample_movie; sample_song])%N /\
  exists selected g',
    within_arm_select [:: sample_movie; sample_song] 0 [:: 0%N] = Some (selected, g') /\
    get_arm selected = get_arm sample_movie.
Proof.
  have idx_lt : (0 < size [:: sample_movie; sample_song])%N by [].
  have [selected [g' [sel _ arm _]]] :=
    within_arm_select_top_five [:: 0%N] idx_lt.
  by split=> //; exists selected, g'.
Defined.

(** X27, at the sample rows: the movie has been shown recently, the two
    songs have not. *)
Lemma get_recommendation_defined_witness :
  (forall s g, Permutation (sample_shuffle s g).1 s) /\
  isSome (get_recommendation no_sqrt sample_shuffle sample_hierarchical "u1"
            sample_birth_year sample_movie_df sample_song_df sample_recent
            sample_context_1970 [:: 1%N; 3%N]).1.1.
Proof.
  have defined :=
    get_recommendation_defined no_sqrt sample_shuffle_perm sample_hierarchical "u1"
      sample_birth_year sample_movie_df sample_song_df sample_recent
      sample_context_1970 [:: 1%N; 3%N].
  by split; [exact: sample_shuffle_perm | rewrite defined].
Defined.

(** X28, at the sample rows. *)
Lemma get_recommendation_fresh_witness :
  (forall s g, Permutation (sample_shuffle s g).1 s) /\
  match (get_recommendation no_sqrt sample_shuffle sample_hierarchical "u1"
           sample_birth_year sample_movie_df sample_song_df sample_recent
           sample_context_1970 [:: 1%N; 3%N]).1.1 with
  | Some (selected, _) =>
      List.In selected
        (generate_candidates sample_birth_year sample_movie_df sample_song_df) /\
      List.existsb (String.eqb (content_id selected)) (recent_ids sample_recent) = false
  | None => True
  end.
Proof.
  split; first exact: sample_shuffle_perm.
  exact: (get_recommendation_fresh no_sqrt sample_shuffle_perm sample_hierarchical "u1"
            sample_birth_year sample_movie_df sample_song_df sample_recent
            sample_context_1970 [:: 1%N; 3%N]).
Defined.

Lemma sample_some_nostalgic :
  List.existsb is_nostalgic
    (exclude_recent sample_recent
       (generate_candidates sample_birth_year sample_movie_df sample_song_df)).
Proof.
  have -> : exclude_recent sample_recent
              (generate_candidates sample_birth_year sample_movie_df sample_song_df) =
            [:: song_candidate sample_birth_year sample_song_row;
                song_candidate sample_birth_year sample_pop_row] by [].
  have nost : is_nostalgic (song_candidate sample_birth_year sample_pop_row) = true.
    by apply: ScoreFilterSpec.is_nostalgic_song_formative.
  by rewrite /= nost orbT.
Qed.

(** X29, at the sample rows: the pop song of 1999 was released when the
    user, born in 1985, was 14. *)
Lemma get_recommendation_nostalgic_witness :
  (forall s g, Permutation (sample_shuffle s g).1 s) /\
  List.existsb is_nostalgic
    (exclude_recent sample_recent
       (generate_candidates sample_birth_year sample_movie_df sample_song_df)) /\
  exists selected score,
    (get_recommendation no_sqrt sample_shuffle sample_hierarchical "u1"
       sample_birth_year sample_movie_df sample_song_df sample_recent
       sample_context_1970 [:: 1%N; 3%N]).1.1 = Some (selected, score) /\
    is_nostalgic selected.
Proof.
  split; first exact: sample_shuffle_perm.
  split; first exact: sample_some_nostalgic.
  exact: (get_recommendation_nostalgic no_sqrt sample_shuffle_perm sample_hierarchical
            "u1" sample_context_1970 [:: 1%N; 3%N] sample_some_nostalgic).
Defined.

End RecommendationSpec.
